(** * Shape tree of a slide: python-pptx, [pptx/shapes.py]

    A shallow embedding of [_ShapeCollection]: unmarshaling of an [spTree]
    element into typed shapes, the drawing-object id allocator, the
    placeholder name allocator, the four [add_*] operations and the cloning
    of layout placeholders, together with the properties of these that the
    design document of the package states. *)

From Stdlib Require Import List String Ascii ZArith Lia Bool Arith.
From Stdlib Require Import Permutation Sorted DecimalString DecimalZ.
Import ListNotations.

Set Warnings "-register-all".

Local Open Scope string_scope.
Local Open Scope list_scope.

(* ====================================================================== *)
(** * Exceptions and results *)

(** The Python exceptions the module can let escape.  [Unbounded] is not
    one of them: it marks a [while] loop of the model that has used up its
    bound, and is shown below never to come out. *)
Inductive exn : Type :=
| ValueError (msg : string)
| TypeError
| KeyError (key : string)
| AttributeError
| Unbounded.

Inductive result (A : Type) : Type :=
| Ok (a : A)
| Raise (e : exn).
Arguments Ok {A} a.
Arguments Raise {A} e.

Definition rbind {A B : Type} (r : result A) (k : A -> result B) : result B :=
  match r with
  | Ok a => k a
  | Raise e => Raise e
  end.

(** A list comprehension whose element expression may raise: the first
    failing element aborts the whole comprehension. *)
Fixpoint mapM {A B : Type} (f : A -> result B) (l : list A) : result (list B) :=
  match l with
  | [] => Ok []
  | a :: l' =>
      rbind (f a) (fun b => rbind (mapM f l') (fun bs => Ok (b :: bs)))
  end.

(* ====================================================================== *)
(** * Elements of the markup tree *)

(** An lxml element as far as this module looks at it: its tag, its
    attributes (in document order) and its child elements. *)
Inductive element : Type :=
| Element (tag : string) (attrib : list (string * string))
          (children : list element).

Definition tag (e : element) : string :=
  match e with Element t _ _ => t end.
Definition attrib (e : element) : list (string * string) :=
  match e with Element _ a _ => a end.
Definition iterchildren (e : element) : list element :=
  match e with Element _ _ cs => cs end.

(** [elm.get(key)]: the value of an attribute, [None] when it is absent. *)
Fixpoint lookup_attr (a : list (string * string)) (key : string)
  : option string :=
  match a with
  | [] => None
  | (k, v) :: a' => if String.eqb k key then Some v else lookup_attr a' key
  end.

Definition get (e : element) (key : string) : option string :=
  lookup_attr (attrib e) key.

(** [elm.append(child)]: the child becomes the last child, in place. *)
Definition append (e child : element) : element :=
  match e with Element t a cs => Element t a (cs ++ [child]) end.

(** All elements of a subtree, the root first, in document order. *)
Fixpoint iterdescendants (e : element) : list element :=
  match e with
  | Element _ _ cs => e :: flat_map iterdescendants cs
  end.

(** ** Where an element sits in its document

    A [_ShapeCollection] keeps a reference to its [spTree] element, which
    lives inside the slide's document; the XPath queries of the module start
    with [//] and so range over that whole document, whichever element they
    are called on.  The reference is rendered as the element together with
    the path from it up to the document root. *)
Inductive frame : Type :=
| Frame (tag : string) (attrib : list (string * string))
        (before after : list element).

Definition plug1 (f : frame) (e : element) : element :=
  match f with Frame t a l r => Element t a (l ++ e :: r) end.

(** The document root, rebuilt around [e]; the innermost frame comes first. *)
Fixpoint getroot (ctx : list frame) (e : element) : element :=
  match ctx with
  | [] => e
  | f :: ctx' => getroot ctx' (plug1 f e)
  end.

(* ====================================================================== *)
(** * Qualified names *)

(** Modelled from the spec: [pptx.spec.namespaces] and [pptx.oxml.qn] are not
    among the sources; [qn] turns a prefixed tag name such as [p:sp] into
    the Clark name lxml reports in [elm.tag], with the three namespaces
    (a, r, p) the module asks for. *)
Definition nsuri (pfx : string) : string :=
  if String.eqb pfx "a" then
    "http://schemas.openxmlformats.org/drawingml/2006/main"
  else if String.eqb pfx "r" then
    "http://schemas.openxmlformats.org/officeDocument/2006/relationships"
  else
    "http://schemas.openxmlformats.org/presentationml/2006/main".

Fixpoint split_colon (s : string) : string * string :=
  match s with
  | EmptyString => (EmptyString, EmptyString)
  | String c s' =>
      if Ascii.eqb c ":" then (EmptyString, s')
      else let (p, l) := split_colon s' in (String c p, l)
  end.

Definition qn (name : string) : string :=
  let (pfx, local) := split_colon name in
  "{" ++ nsuri pfx ++ "}" ++ local.

Definition _NVGRPSPPR : string := Eval vm_compute in qn "p:nvGrpSpPr".
Definition _GRPSPPR : string := Eval vm_compute in qn "p:grpSpPr".
Definition _SP : string := Eval vm_compute in qn "p:sp".
Definition _GRPSP : string := Eval vm_compute in qn "p:grpSp".
Definition _GRAPHICFRAME : string := Eval vm_compute in qn "p:graphicFrame".
Definition _CXNSP : string := Eval vm_compute in qn "p:cxnSp".
Definition _PIC : string := Eval vm_compute in qn "p:pic".
Definition _CONTENTPART : string := Eval vm_compute in qn "p:contentPart".
Definition _EXTLST : string := Eval vm_compute in qn "p:extLst".

(** Tags the XPath expressions and the node builders name. *)
Definition _CNVPR : string := Eval vm_compute in qn "p:cNvPr".
Definition _NVPR : string := Eval vm_compute in qn "p:nvPr".
Definition _PH : string := Eval vm_compute in qn "p:ph".

(* ====================================================================== *)
(** * Integers in attributes and in names *)

(** ** [int(s)]

    The text of an attribute is read as Python reads it, character by
    character, each character a code point below 256: blanks at both ends
    are skipped, a sign may come first, and then come decimal digits, which
    single underscores may separate; leading zeros are read.  The limit on
    the number of digits that recent interpreters apply, unless it is
    switched off, is a setting of the interpreter and not part of this
    reading. *)

(** The characters [int] skips at the ends: tab to carriage return, the
    blank, and the two blanks above 127. *)
Definition is_space (a : ascii) : bool :=
  let n := nat_of_ascii a in
  ((9 <=? n)%nat && (n <=? 13)%nat) || (n =? 32)%nat || (n =? 133)%nat
  || (n =? 160)%nat.

Fixpoint lstrip (s : string) : string :=
  match s with
  | EmptyString => EmptyString
  | String a s' => if is_space a then lstrip s' else s
  end.

Fixpoint rstrip (s : string) : string :=
  match s with
  | EmptyString => EmptyString
  | String a s' =>
      match rstrip s' with
      | EmptyString => if is_space a then EmptyString
                       else String a EmptyString
      | r => String a r
      end
  end.

Definition strip (s : string) : string := rstrip (lstrip s).

(** The digits without the underscores that group them; an underscore is
    in place only between two digits. *)
Fixpoint ungroup (after_digit : bool) (s : string) : option string :=
  match s with
  | EmptyString => if after_digit then Some EmptyString else None
  | String a s' =>
      if Ascii.eqb a "_" then
        if after_digit then ungroup false s' else None
      else option_map (String a) (ungroup true s')
  end.

Definition digits (s : string) : option Decimal.uint :=
  match ungroup false s with
  | Some u => NilZero.uint_of_string u
  | None => None
  end.

Definition int_literal (s : string) : option Z :=
  match strip s with
  | EmptyString => None
  | String a r =>
      if Ascii.eqb a "-" then
        option_map (fun d => (- Z.of_uint d)%Z) (digits r)
      else if Ascii.eqb a "+" then option_map Z.of_uint (digits r)
      else option_map Z.of_uint (digits (String a r))
  end.

(** [repr(s)], for the message of the [ValueError]. *)
Definition squote : ascii := "'"%char.
Definition dquote : ascii := ascii_of_nat 34.
Definition backslash : ascii := "\"%char.

Definition hex_digit (n : nat) : ascii :=
  match n with
  | 0 => "0" | 1 => "1" | 2 => "2" | 3 => "3" | 4 => "4" | 5 => "5"
  | 6 => "6" | 7 => "7" | 8 => "8" | 9 => "9" | 10 => "a" | 11 => "b"
  | 12 => "c" | 13 => "d" | 14 => "e" | _ => "f"
  end%char.

Definition printable (a : ascii) : bool :=
  let n := nat_of_ascii a in
  ((32 <=? n)%nat && (n <=? 126)%nat)
  || ((161 <=? n)%nat && negb (n =? 173)%nat).

Definition repr_char (quote a : ascii) : string :=
  let n := nat_of_ascii a in
  if Ascii.eqb a quote || Ascii.eqb a backslash then
    String backslash (String a EmptyString)
  else if (n =? 9)%nat then String backslash "t"
  else if (n =? 10)%nat then String backslash "n"
  else if (n =? 13)%nat then String backslash "r"
  else if printable a then String a EmptyString
  else String backslash
         (String "x" (String (hex_digit (n / 16))
                             (String (hex_digit (n mod 16)) EmptyString))).

Fixpoint contains (a : ascii) (s : string) : bool :=
  match s with
  | EmptyString => false
  | String b s' => Ascii.eqb a b || contains a s'
  end.

Fixpoint repr_chars (quote : ascii) (s : string) : string :=
  match s with
  | EmptyString => String quote EmptyString
  | String a s' => (repr_char quote a ++ repr_chars quote s')%string
  end.

Definition repr (s : string) : string :=
  let quote :=
    if contains squote s && negb (contains dquote s) then dquote
    else squote in
  String quote (repr_chars quote s).

(** The message shows at most 200 characters of the text. *)
Definition invalid_literal (s : string) : string :=
  ("invalid literal for int() with base 10: "
   ++ substring 0 200 (repr s))%string.

(** [int(v)] for what [elm.get] gives: [None] (an absent attribute) is a
    [TypeError], a text that is no integer literal a [ValueError]. *)
Definition int (v : option string) : result Z :=
  match v with
  | None => Raise TypeError
  | Some s =>
      match int_literal s with
      | Some n => Ok n
      | None => Raise (ValueError (invalid_literal s))
      end
  end.

(** ['%d' % n] *)
Definition fmt_d (n : Z) : string := NilZero.string_of_int (Z.to_int n).

(** ['%s %d' % (basename, n)] *)
Definition fmt_s_d (basename : string) (n : Z) : string :=
  basename ++ " " ++ fmt_d n.

(* ====================================================================== *)
(** * Sorting

    [list.sort(key=...)] is Python's built-in stable sort; it is rendered
    as a stable insertion sort on the integer keys. *)
Section Sort.
Context {A : Type} (key : A -> Z).

(** [x] goes in front of the first element whose key is not smaller, so
    that an element stays ahead of the later ones with the same key. *)
Fixpoint insert_front (x : A) (l : list A) : list A :=
  match l with
  | [] => [x]
  | y :: l' =>
      if (key y <? key x)%Z then y :: insert_front x l'
      else x :: y :: l'
  end.

Fixpoint sort (l : list A) : list A :=
  match l with
  | [] => []
  | x :: l' => insert_front x (sort l')
  end.

End Sort.

(* ====================================================================== *)
(** * Collaborators *)

(** Modelled from the spec: the image provider behind [slide._add_image]
    (§6) is not among the sources.  An image hands out a description, and
    display dimensions for the optional width and height asked for; the
    relationship hands out the id to embed. *)
Record image : Type := {
  _desc : string;
  _scale : option Z -> option Z -> Z * Z
}.

Record relationship : Type := { _rId : string }.

Record slide : Type := { _add_image : string -> image * relationship }.

(** Modelled from the spec: [pptx.autoshape._AutoShapeType] is not among
    the sources; an autoshape kind has a descriptive basename and a geometry
    preset. *)
Record autoshape_type : Type := { basename : string; prst : string }.

(** The constants and tables [shapes.py] imports from [pptx.spec] and
    [pptx.autoshape]; they are not among the sources and stay parameters of
    the development. *)
Record imports : Type := {
  slide_ph_basenames : string -> option string;
  PH_ORIENT_VERT : string;
  PH_TYPE_DT : string;
  PH_TYPE_FTR : string;
  PH_TYPE_SLDNUM : string;
  _AutoShapeType : Z -> result autoshape_type
}.

(** ** Node builders *)

Definition pos_attrs (left top : Z) : list (string * string) :=
  [("x", fmt_d left); ("y", fmt_d top)].
Definition ext_attrs (width height : Z) : list (string * string) :=
  [("cx", fmt_d width); ("cy", fmt_d height)].

Definition xfrm (tg : string) (left top width height : Z) : element :=
  Element tg []
    [Element (qn "a:off") (pos_attrs left top) [];
     Element (qn "a:ext") (ext_attrs width height) []].

Definition cNvPr (id : Z) (name : string) (more : list (string * string))
  : element :=
  Element _CNVPR (("id", fmt_d id) :: ("name", name) :: more) [].

(** Modelled from the spec: [CT_Picture.new_pic] of [pptx.oxml] is not among
    the sources; it builds a well-formed picture node from the id, the name,
    the image description and relationship id, the position and the
    size. *)
Definition new_pic (id : Z) (name desc rId : string)
    (left top width height : Z) : element :=
  Element _PIC []
    [Element (qn "p:nvPicPr") []
       [cNvPr id name [("descr", desc)];
        Element (qn "p:cNvPicPr") [] [];
        Element _NVPR [] []];
     Element (qn "p:blipFill") []
       [Element (qn "a:blip") [(qn "r:embed", rId)] []];
     Element (qn "p:spPr") []
       [xfrm (qn "a:xfrm") left top width height]].

(** Modelled from the spec: [CT_Shape.new_autoshape_sp] is not among the
    sources; an autoshape node with the kind's geometry preset. *)
Definition new_autoshape_sp (id : Z) (name prst : string)
    (left top width height : Z) : element :=
  Element _SP []
    [Element (qn "p:nvSpPr") []
       [cNvPr id name [];
        Element (qn "p:cNvSpPr") [] [];
        Element _NVPR [] []];
     Element (qn "p:spPr") []
       [xfrm (qn "a:xfrm") left top width height;
        Element (qn "a:prstGeom") [("prst", prst)] []]].

(** Modelled from the spec: [CT_Shape.new_textbox_sp] is not among the
    sources; a text-capable autoshape node. *)
Definition new_textbox_sp (id : Z) (name : string)
    (left top width height : Z) : element :=
  Element _SP []
    [Element (qn "p:nvSpPr") []
       [cNvPr id name [];
        Element (qn "p:cNvSpPr") [("txBox", "1")] [];
        Element _NVPR [] []];
     Element (qn "p:spPr") []
       [xfrm (qn "a:xfrm") left top width height;
        Element (qn "a:prstGeom") [("prst", "rect")] []];
     Element (qn "p:txBody") [] []].

(** Modelled from the spec: [CT_Shape.new_placeholder_sp] is not among the
    sources; a placeholder node that carries the type, orientation, size
    and idx it is given. *)
Definition new_placeholder_sp (id : Z) (name ph_type orient sz : string)
    (idx : Z) : element :=
  Element _SP []
    [Element (qn "p:nvSpPr") []
       [cNvPr id name [];
        Element (qn "p:cNvSpPr") [] [];
        Element _NVPR []
          [Element _PH [("type", ph_type); ("orient", orient);
                        ("sz", sz); ("idx", fmt_d idx)] []]];
     Element (qn "p:spPr") [] []].

(** Modelled from the spec: [CT_GraphicalObjectFrame.new_table] is not among
    the sources; a graphic frame that holds a table of [rows] by [cols]
    cells, the width divided evenly over the columns and the height over the
    rows. *)
Definition new_table (id : Z) (name : string) (rows cols : Z)
    (left top width height : Z) : element :=
  let gridCol := Element (qn "a:gridCol") [("w", fmt_d (width / cols))] [] in
  let tc := Element (qn "a:tc") [] [] in
  let tr :=
    Element (qn "a:tr") [("h", fmt_d (height / rows))]
            (repeat tc (Z.to_nat cols)) in
  Element _GRAPHICFRAME []
    [Element (qn "p:nvGraphicFramePr") []
       [cNvPr id name [];
        Element (qn "p:cNvGraphicFramePr") [] [];
        Element _NVPR [] []];
     xfrm (qn "p:xfrm") left top width height;
     Element (qn "a:graphic") []
       [Element (qn "a:graphicData") []
          [Element (qn "a:tbl") []
             (Element (qn "a:tblGrid") [] (repeat gridCol (Z.to_nat cols))
              :: repeat tr (Z.to_nat rows))]]].

(** [elm.find(tag)]: the first child with that tag. *)
Definition find_child (tg : string) (e : element) : option element :=
  find (fun c => String.eqb (tag c) tg) (iterchildren e).

(** Modelled from the spec: [CT_GraphicalObjectFrame.has_table] is not among
    the sources; whether the frame contains a table graphic. *)
Definition has_table (elm : element) : bool :=
  match find_child (qn "a:graphic") elm with
  | None => false
  | Some graphic =>
      match find_child (qn "a:graphicData") graphic with
      | None => false
      | Some graphicData =>
          match find_child (qn "a:tbl") graphicData with
          | None => false
          | Some _ => true
          end
      end
  end.

(* ====================================================================== *)
(** * Shapes *)

(** The wrappers [_ShapeCollection.__init__] puts around child elements.  A
    nested [_ShapeCollection] carries the shapes it has unmarshaled from its
    own children. *)
Inductive shape : Type :=
| _BaseShape (elm : element)
| _Shape (sp : element)
| _Picture (pic : element)
| _Table (graphicFrame : element)
| _ShapeCollection (spTree : element) (shapes : list shape).

Definition _element (s : shape) : element :=
  match s with
  | _BaseShape e | _Shape e | _Picture e | _Table e
  | _ShapeCollection e _ => e
  end.

(** Modelled from the spec: [pptx.shape._BaseShape] is not among the
    sources.  Every shape exposes an id and a name, those of the [cNvPr]
    element in its non-visual properties (the first child), and whether it
    is a placeholder, that is whether those properties hold a [ph]
    element. *)
Definition _nvXxPr (s : shape) : option element :=
  hd_error (iterchildren (_element s)).

Definition shape_cNvPr (s : shape) : option element :=
  match _nvXxPr s with
  | Some nv => find_child _CNVPR nv
  | None => None
  end.

Definition id (s : shape) : result Z :=
  match shape_cNvPr s with
  | Some c => int (get c "id")
  | None => Raise AttributeError
  end.

Definition name (s : shape) : option string :=
  match shape_cNvPr s with
  | Some c => get c "name"
  | None => None
  end.

Definition shape_ph (s : shape) : option element :=
  match _nvXxPr s with
  | Some nv =>
      match find_child _NVPR nv with
      | Some nvPr => find_child _PH nvPr
      | None => None
      end
  | None => None
  end.

Definition is_placeholder (s : shape) : bool :=
  match shape_ph s with Some _ => true | None => false end.

(** Modelled from the spec: [pptx.placeholder._Placeholder] is not among the
    sources.  The overlay over a placeholder shape exposes the type, the
    orientation, the size and the idx of its [ph] element; an attribute
    left out reads as the default of the schema. *)
Inductive placeholder : Type :=
| _Placeholder (sp : shape).

Definition ph_shape (ph : placeholder) : shape :=
  match ph with _Placeholder sp => sp end.

Definition ph_attr (ph : placeholder) (key default : string) : string :=
  match shape_ph (ph_shape ph) with
  | Some e => match get e key with Some v => v | None => default end
  | None => default
  end.

Definition type (ph : placeholder) : string := ph_attr ph "type" "obj".
Definition orient (ph : placeholder) : string := ph_attr ph "orient" "horz".
Definition sz (ph : placeholder) : string := ph_attr ph "sz" "full".
Definition idx (ph : placeholder) : result Z :=
  int (Some (ph_attr ph "idx" "0")).

(* ====================================================================== *)
(** * [_ShapeCollection.__init__]: unmarshaling *)

Section Unmarshal.
Variable unmarshal_group : element -> result (list shape).

(** The body of the loop over the children: [None] stands for [continue],
    [Some shape] for the wrapper that is then appended. *)
Definition unmarshal_child (elm : element) : result (option shape) :=
  if String.eqb (tag elm) _NVGRPSPPR || String.eqb (tag elm) _GRPSPPR
     || String.eqb (tag elm) _EXTLST then
    Ok None
  else if String.eqb (tag elm) _SP then
    Ok (Some (_Shape elm))
  else if String.eqb (tag elm) _PIC then
    Ok (Some (_Picture elm))
  else if String.eqb (tag elm) _GRPSP then
    rbind (unmarshal_group elm)
          (fun shapes => Ok (Some (_ShapeCollection elm shapes)))
  else if String.eqb (tag elm) _GRAPHICFRAME then
    if has_table elm then Ok (Some (_Table elm))
    else Ok (Some (_BaseShape elm))
  else if String.eqb (tag elm) _CONTENTPART then
    Raise (ValueError
      "first time 'contentPart' shape encountered in the wild, please let developer know and send example")
  else
    Ok (Some (_BaseShape elm)).

Fixpoint unmarshal_loop (elms : list element) (shapes : list shape)
  : result (list shape) :=
  match elms with
  | [] => Ok shapes
  | elm :: rest =>
      rbind (unmarshal_child elm) (fun o =>
        match o with
        | None => unmarshal_loop rest shapes
        | Some shape => unmarshal_loop rest (shapes ++ [shape])
        end)
  end.

End Unmarshal.

(** The shapes of a new collection over [spTree], or the exception the
    constructor lets escape. *)
Fixpoint unmarshal (spTree : element) : result (list shape) :=
  match spTree with
  | Element _ _ cs => unmarshal_loop unmarshal cs []
  end.

(** The state of a [_ShapeCollection] object: its [spTree] element with the
    place of that element in the document, the slide it was made for
    ([None] for the collection of a nested group, which [__init__] builds
    without a slide) and the sequence of its shapes. *)
Record collection : Type := {
  ctx : list frame;
  __spTree : element;
  __slide : option slide;
  __shapes : list shape
}.

(** [_ShapeCollection(spTree, slide)] *)
Definition __init__ (ctx : list frame) (spTree : element)
    (slide : option slide) : result collection :=
  rbind (unmarshal spTree) (fun shapes =>
    Ok {| ctx := ctx; __spTree := spTree; __slide := slide;
          __shapes := shapes |}).

(** The root of the document the collection lives in. *)
Definition document (c : collection) : element :=
  getroot (ctx c) (__spTree c).

(* ====================================================================== *)
(** * [placeholders] *)

(** [key=lambda ph: ph.idx]: the key of a placeholder, with the
    placeholder. *)
Definition keyed (ph : placeholder) : result (Z * placeholder) :=
  rbind (idx ph) (fun k => Ok (k, ph)).

(** The keys are taken for every element before the list is reordered, so a
    malformed idx makes the property raise. *)
Definition placeholders (c : collection) : result (list placeholder) :=
  let placeholders :=
    map _Placeholder (filter is_placeholder (__shapes c)) in
  rbind (mapM keyed placeholders)
        (fun decorated => Ok (map snd (sort fst decorated))).

(* ====================================================================== *)
(** * Methods: state and exceptions

    A method runs on the state of the collection and either returns or
    raises; what it has changed before raising stays changed. *)
Definition M (A : Type) : Type := collection -> result A * collection.

Definition ret {A : Type} (a : A) : M A := fun c => (Ok a, c).

Definition bind {A B : Type} (m : M A) (k : A -> M B) : M B :=
  fun c =>
    match m c with
    | (Ok a, c') => k a c'
    | (Raise e, c') => (Raise e, c')
    end.

Definition lift {A : Type} (r : result A) : M A := fun c => (r, c).

Definition reading {A : Type} (f : collection -> result A) : M A :=
  fun c => (f c, c).

Notation "x <- m ;; k" := (bind m (fun x => k))
  (at level 61, m at next level, right associativity).
Notation "m ;;; k" := (bind m (fun _ => k))
  (at level 61, right associativity).

(** [self.__spTree.append(elm)] *)
Definition spTree_append (elm : element) : M unit :=
  fun c =>
    (Ok tt, {| ctx := ctx c; __spTree := append (__spTree c) elm;
               __slide := __slide c; __shapes := __shapes c |}).

(** [self.__shapes.append(shape)] *)
Definition shapes_append (s : shape) : M unit :=
  fun c =>
    (Ok tt, {| ctx := ctx c; __spTree := __spTree c;
               __slide := __slide c; __shapes := __shapes c ++ [s] |}).

(** [self.__slide._add_image(file)]; a collection made without a slide has
    [None] there, and the attribute access raises. *)
Definition slide_add_image (file : string) : M (image * relationship) :=
  fun c =>
    match __slide c with
    | Some s => (Ok (_add_image s file), c)
    | None => (Raise AttributeError, c)
    end.

(* ====================================================================== *)
(** * The id allocator *)

(** [spTree.xpath('//p:cNvPr')]: the expression starts at the document
    root. *)
Definition xpath_cNvPr (c : collection) : list element :=
  filter (fun e => String.eqb (tag e) _CNVPR)
         (iterdescendants (document c)).

(** [spTree.xpath('//p:cNvPr/@name')]: the name attributes there are. *)
Definition xpath_cNvPr_name (c : collection) : list string :=
  flat_map (fun e => match get e "name" with
                     | Some n => [n]
                     | None => []
                     end)
           (xpath_cNvPr c).

(** The loop over the sorted ids: the first gap in the sequence wins, or the
    loop falls off the end. *)
Fixpoint first_gap (ids : list Z) (next_id : Z) : Z :=
  match ids with
  | [] => next_id
  | id :: ids' =>
      if (id >? next_id)%Z then next_id
      else first_gap ids' (next_id + 1)%Z
  end.

Definition shape_ids (c : collection) : result (list Z) :=
  mapM (fun cNvPr => int (get cNvPr "id")) (xpath_cNvPr c).

Definition next_shape_id_of (c : collection) : result Z :=
  rbind (shape_ids c) (fun ids =>
    let ids := sort (fun i => i) ids in
    Ok (first_gap ids 1%Z)).

Definition __next_shape_id : M Z := reading next_shape_id_of.

(* ====================================================================== *)
(** * The placeholder name allocator *)

Definition in_names (name : string) (names : list string) : bool :=
  existsb (String.eqb name) names.

(** The [while True] loop, run for at most [bound] rounds. *)
Fixpoint ph_name_loop (bound : nat) (basename : string) (numpart : Z)
    (names : list string) : option string :=
  match bound with
  | O => None
  | S bound' =>
      let name := fmt_s_d basename numpart in
      if negb (in_names name names) then Some name
      else ph_name_loop bound' basename (numpart + 1)%Z names
  end.

Section Methods.
Context (K : imports).

(** The loop is given one round more than there are names. *)
Definition next_ph_name_of (ph_type : string) (id : Z) (orient : string)
    (c : collection) : result string :=
  match slide_ph_basenames K ph_type with
  | None => Raise (KeyError ph_type)
  | Some basename =>
      let basename :=
        if String.eqb orient (PH_ORIENT_VERT K) then ("Vertical " ++ basename)%string
        else basename in
      let numpart := (id - 1)%Z in
      let names := xpath_cNvPr_name c in
      match ph_name_loop (S (List.length names)) basename numpart names with
      | Some name => Ok name
      | None => Raise Unbounded
      end
  end.

Definition __next_ph_name (ph_type : string) (id : Z) (orient : string)
  : M string :=
  reading (next_ph_name_of ph_type id orient).

(* ====================================================================== *)
(** * The mutators *)

Definition add_picture (file : string) (left top : Z)
    (width height : option Z) : M shape :=
  ir <- slide_add_image file ;;
  let (image, rel) := ir : image * relationship in
  id <- __next_shape_id ;;
  let name := fmt_s_d "Picture" (id - 1) in
  let desc := _desc image in
  let rId := _rId rel in
  let (width, height) := _scale image width height in
  let pic := new_pic id name desc rId left top width height in
  spTree_append pic ;;;
  let picture := _Picture pic in
  shapes_append picture ;;;
  ret picture.

Definition add_shape (autoshape_type_id : Z) (left top width height : Z)
  : M shape :=
  autoshape_type <- lift (_AutoShapeType K autoshape_type_id) ;;
  id_ <- __next_shape_id ;;
  let name := fmt_s_d (basename autoshape_type) (id_ - 1) in
  let sp := new_autoshape_sp id_ name (prst autoshape_type)
                             left top width height in
  let shape := _Shape sp in
  spTree_append sp ;;;
  shapes_append shape ;;;
  ret shape.

Definition add_table (rows cols : Z) (left top width height : Z) : M shape :=
  id <- __next_shape_id ;;
  let name := fmt_s_d "Table" (id - 1) in
  let graphicFrame :=
    new_table id name rows cols left top width height in
  spTree_append graphicFrame ;;;
  let table := _Table graphicFrame in
  shapes_append table ;;;
  ret table.

Definition add_textbox (left top width height : Z) : M shape :=
  id_ <- __next_shape_id ;;
  let name := fmt_s_d "TextBox" (id_ - 1) in
  let sp := new_textbox_sp id_ name left top width height in
  let shape := _Shape sp in
  spTree_append sp ;;;
  shapes_append shape ;;;
  ret shape.

Definition __clone_layout_placeholder (layout_ph : placeholder) : M shape :=
  id_ <- __next_shape_id ;;
  let ph_type := type layout_ph in
  let orient := orient layout_ph in
  shapename <- __next_ph_name ph_type id_ orient ;;
  let sz := sz layout_ph in
  idx <- lift (idx layout_ph) ;;
  let sp := new_placeholder_sp id_ shapename ph_type orient sz idx in
  let shape := _Shape sp in
  spTree_append sp ;;;
  shapes_append shape ;;;
  ret shape.

Definition latent_ph_types : list string :=
  [PH_TYPE_DT K; PH_TYPE_SLDNUM K; PH_TYPE_FTR K].

(** The body of the loop over [slidelayout.shapes]: whether the shape is one
    to clone. *)
Definition cloned (sp : shape) : bool :=
  is_placeholder sp
  && negb (existsb (String.eqb (type (_Placeholder sp))) latent_ph_types).

Fixpoint clone_loop (sps : list shape) : M unit :=
  match sps with
  | [] => ret tt
  | sp :: rest =>
      if negb (is_placeholder sp) then clone_loop rest
      else
        let ph := _Placeholder sp in
        if existsb (String.eqb (type ph)) latent_ph_types then
          clone_loop rest
        else
          __clone_layout_placeholder ph ;;; clone_loop rest
  end.

(** [slidelayout.shapes] is the layout's own collection, of another
    document; it is only read. *)
Definition _clone_layout_placeholders (slidelayout_shapes : list shape)
  : M unit :=
  clone_loop slidelayout_shapes.

(** ** Sequences of calls *)

Inductive call : Type :=
| Add_picture (file : string) (left top : Z) (width height : option Z)
| Add_shape (autoshape_type_id : Z) (left top width height : Z)
| Add_table (rows cols : Z) (left top width height : Z)
| Add_textbox (left top width height : Z)
| Clone_layout_placeholders (slidelayout_shapes : list shape).

(** The state a call leaves behind, whether it has returned or raised. *)
Definition exec (k : call) (c : collection) : collection :=
  match k with
  | Add_picture f l t w h => snd (add_picture f l t w h c)
  | Add_shape a l t w h => snd (add_shape a l t w h c)
  | Add_table r n l t w h => snd (add_table r n l t w h c)
  | Add_textbox l t w h => snd (add_textbox l t w h c)
  | Clone_layout_placeholders sps => snd (_clone_layout_placeholders sps c)
  end.

(** One call on some collection of the document (the slide's, or that of a
    group nested in it) takes the document from one root to the next. *)
Inductive doc_step : element -> element -> Prop :=
| Doc_step (c : collection) (k : call) :
    doc_step (document c) (document (exec k c)).

Inductive doc_steps : element -> element -> Prop :=
| Doc_refl root : doc_steps root root
| Doc_more root root' root'' :
    doc_steps root root' -> doc_step root' root'' -> doc_steps root root''.

End Methods.

(* ====================================================================== *)
(** * Sample data for the examples *)

(** A table of placeholder basenames and the constants that go with it,
    with the entries the examples use. *)
Definition sample_basenames (ph_type : string) : option string :=
  if String.eqb ph_type "title" then Some "Title"
  else if String.eqb ph_type "body" then Some "Text Placeholder"
  else if String.eqb ph_type "tbl" then Some "Table Placeholder"
  else if String.eqb ph_type "dt" then Some "Date Placeholder"
  else if String.eqb ph_type "sldNum" then Some "Slide Number Placeholder"
  else if String.eqb ph_type "ftr" then Some "Footer Placeholder"
  else None.

Definition sample_imports : imports := {|
  slide_ph_basenames := sample_basenames;
  PH_ORIENT_VERT := "vert";
  PH_TYPE_DT := "dt";
  PH_TYPE_FTR := "ftr";
  PH_TYPE_SLDNUM := "sldNum";
  _AutoShapeType := fun i =>
    if (i =? 1)%Z then Ok {| basename := "Rectangle"; prst := "rect" |}
    else Raise (KeyError (fmt_d i))
|}.

(** The non-visual properties every [spTree] starts with; the tree itself
    owns id 1. *)
Definition sample_nvGrpSpPr : element :=
  Element _NVGRPSPPR []
    [cNvPr 1 "" []; Element (qn "p:cNvGrpSpPr") [] [];
     Element _NVPR [] []].

Definition sample_sld (spTree : element) : collection := {|
  ctx := [Frame (qn "p:cSld") [] [] []; Frame (qn "p:sld") [] [] []];
  __spTree := spTree;
  __slide := None;
  __shapes := match unmarshal spTree with Ok l => l | Raise _ => [] end
|}.

(** A slide whose shapes have the ids 2 and 4 (with the tree: 1, 2, 4). *)
Definition sample_gap : collection :=
  sample_sld (Element (qn "p:spTree") []
    [sample_nvGrpSpPr; Element _GRPSPPR [] [];
     new_textbox_sp 2 "TextBox 1" 0 0 10 10;
     new_textbox_sp 4 "TextBox 3" 0 0 10 10]).

(** A slide whose shapes have the ids 2 and 3. *)
Definition sample_full : collection :=
  sample_sld (Element (qn "p:spTree") []
    [sample_nvGrpSpPr; Element _GRPSPPR [] [];
     new_textbox_sp 2 "TextBox 1" 0 0 10 10;
     new_textbox_sp 3 "TextBox 2" 0 0 10 10]).

(** A slide with one shape, of id 3, that is named like a first text
    box. *)
Definition sample_renamed : collection :=
  sample_sld (Element (qn "p:spTree") []
    [sample_nvGrpSpPr; Element _GRPSPPR [] [];
     new_textbox_sp 3 "TextBox 1" 0 0 10 10]).

(** A tree whose only shape is a group that holds a content part. *)
Definition sample_nested_contentPart : element :=
  Element (qn "p:spTree") []
    [sample_nvGrpSpPr; Element _GRPSPPR [] [];
     Element _GRPSP []
       [Element _NVGRPSPPR [] [cNvPr 2 "Group 1" []];
        Element _CONTENTPART [] []]].

(** A layout with placeholders of idx 3, 1 and 2 (in this order), then a
    date, a footer and a slide number placeholder, and a vertical body. *)
Definition sample_layout : list shape :=
  [_Shape (new_placeholder_sp 2 "Title 1" "title" "horz" "full" 3);
   _Shape (new_placeholder_sp 3 "Text Placeholder 2" "body" "horz" "full" 1);
   _Shape (new_placeholder_sp 4 "Table Placeholder 3" "tbl" "horz" "half" 2);
   _Shape (new_placeholder_sp 5 "Date Placeholder 4" "dt" "horz" "half" 10);
   _Shape (new_placeholder_sp 6 "Footer Placeholder 5" "ftr" "horz"
                              "quarter" 11);
   _Shape (new_placeholder_sp 7 "Slide Number Placeholder 6" "sldNum" "horz"
                              "quarter" 12);
   _Shape (new_textbox_sp 8 "TextBox 7" 0 0 10 10);
   _Shape (new_placeholder_sp 9 "Vertical Text Placeholder 8" "body" "vert"
                              "full" 13)].

(** The sample slide with the gap after the placeholders of the sample
    layout have been cloned onto it. *)
Definition sample_cloned : collection :=
  exec sample_imports (Clone_layout_placeholders sample_layout) sample_gap.

Definition sample_placeholders : list placeholder :=
  match placeholders sample_cloned with
  | Ok phs => phs
  | Raise _ => []
  end.

(** A slide whose two placeholders, of ids 3 and 5, have the names a body
    placeholder would get for the ids 2 and 3. *)
Definition sample_taken : collection :=
  sample_sld (Element (qn "p:spTree") []
    [sample_nvGrpSpPr; Element _GRPSPPR [] [];
     new_placeholder_sp 3 "Text Placeholder 1" "body" "horz" "full" 1;
     new_placeholder_sp 5 "Text Placeholder 2" "body" "horz" "half" 2]).

(* ====================================================================== *)
(** * Notions the properties are stated with *)

(** The order a sort by [key] establishes. *)
Definition key_le {A : Type} (key : A -> Z) (a b : A) : Prop :=
  (key a <= key b)%Z.

(** The attributes of the [cNvPr] elements of a subtree, in document
    order: what the two XPath queries read. *)
Definition is_cNvPr (e : element) : bool := String.eqb (tag e) _CNVPR.

Definition cNvPr_attribs (e : element) : list (list (string * string)) :=
  map attrib (filter is_cNvPr (iterdescendants e)).

Definition id_of_attribs (a : list (string * string)) : result Z :=
  int (lookup_attr a "id").

Definition name_of_attribs (a : list (string * string)) : list string :=
  match lookup_attr a "name" with
  | Some n => [n]
  | None => []
  end.

(** The ids and the names of all shape-identifying elements of a document. *)
Definition ids_of (root : element) : result (list Z) :=
  mapM id_of_attribs (cNvPr_attribs root).

Definition names_of (root : element) : list string :=
  flat_map name_of_attribs (cNvPr_attribs root).

(** The names of the shape-identifying elements anywhere in a tree, found
    by walking the tree: the name of the element itself when it is a [cNvPr]
    with a name, then those in its children, in order. *)
Fixpoint tree_names (e : element) : list string :=
  match e with
  | Element t a cs =>
      (if String.eqb t _CNVPR then
         match lookup_attr a "name" with
         | Some n => [n]
         | None => []
         end
       else [])
      ++ flat_map tree_names cs
  end.

(** Every id of the document is a number and no two are the same. *)
Definition ids_distinct (root : element) : Prop :=
  exists ids, ids_of root = Ok ids /\ NoDup ids.

Definition names_distinct (root : element) : Prop := NoDup (names_of root).

(** The collection after [elm] has been appended to the tree and its
    wrapper [s] to the sequence. *)
Definition appended (c : collection) (elm : element) (s : shape)
  : collection :=
  {| ctx := ctx c; __spTree := append (__spTree c) elm;
     __slide := __slide c; __shapes := __shapes c ++ [s] |}.

(** [elm] holds just one [cNvPr] element, and that carries [id] and
    [nm]. *)
Definition identified_by (elm : element) (id : Z) (nm : string) : Prop :=
  exists more,
    cNvPr_attribs elm = [("id", fmt_d id) :: ("name", nm) :: more].

(** A collection that has grown by shapes appended one at a time: each got
    the id the allocator had to give then and a name that [P] admits, holds
    no other [cNvPr] element, and is wrapped the way unmarshaling would wrap
    it. *)
Inductive grown (P : collection -> Z -> string -> Prop)
  : collection -> collection -> Prop :=
| Grown_refl c : grown P c c
| Grown_step c c' elm s id nm :
    grown P c c' ->
    next_shape_id_of c' = Ok id ->
    identified_by elm id nm ->
    P c' id nm ->
    unmarshal_child unmarshal elm = Ok (Some s) ->
    grown P c (appended c' elm s).

(** The name a plain add composes: some basename and the id less one. *)
Definition composed_name (c : collection) (id : Z) (nm : string) : Prop :=
  exists basename, nm = fmt_s_d basename (id - 1).

(** The name is none of those in the document. *)
Definition unused_name (c : collection) (id : Z) (nm : string) : Prop :=
  ~ In nm (names_of (document c)).

(** ** The dispatch table of the design document (§4.1)

    The table is written down the way the document gives it, tag by tag,
    to be compared with the chain of tests in [__init__]. *)
Inductive variant : Type :=
| Skip
| AutoShape
| Picture
| Group
| GraphicFrame
| Generic
| Unsupported.

Definition dispatch_table : list (string * variant) :=
  [(_GRPSPPR, Skip); (_NVGRPSPPR, Skip); (_EXTLST, Skip);
   (_SP, AutoShape); (_PIC, Picture); (_GRPSP, Group);
   (_GRAPHICFRAME, GraphicFrame); (_CXNSP, Generic);
   (_CONTENTPART, Unsupported)].

Fixpoint lookup_variant (table : list (string * variant)) (tg : string)
  : variant :=
  match table with
  | [] => Generic
  | (t, v) :: table' =>
      if String.eqb t tg then v else lookup_variant table' tg
  end.

Definition variant_of_tag (tg : string) : variant :=
  lookup_variant dispatch_table tg.

Definition unsupported_msg : string :=
  "first time 'contentPart' shape encountered in the wild, please let developer know and send example".

(** What the table asks of the outcome for a child. *)
Definition dispatched (elm : element) (r : result (option shape)) : Prop :=
  match variant_of_tag (tag elm) with
  | Skip => r = Ok None
  | AutoShape => r = Ok (Some (_Shape elm))
  | Picture => r = Ok (Some (_Picture elm))
  | Group =>
      match unmarshal elm with
      | Ok shapes => r = Ok (Some (_ShapeCollection elm shapes))
      | Raise e => r = Raise e
      end
  | GraphicFrame =>
      if has_table elm then r = Ok (Some (_Table elm))
      else r = Ok (Some (_BaseShape elm))
  | Generic => r = Ok (Some (_BaseShape elm))
  | Unsupported => r = Raise (ValueError unsupported_msg)
  end.

(** A child that is not a shape: the loop goes on to the next one. *)
Definition skipped (elm : element) : bool :=
  String.eqb (tag elm) _NVGRPSPPR || String.eqb (tag elm) _GRPSPPR
  || String.eqb (tag elm) _EXTLST.

(** A content part among the children, or among those of a group shape
    among the children, and so on down the groups. *)
Fixpoint has_contentPart (spTree : element) : bool :=
  match spTree with
  | Element _ _ cs =>
      existsb (fun elm =>
                 String.eqb (tag elm) _CONTENTPART
                 || (String.eqb (tag elm) _GRPSP && has_contentPart elm))
              cs
  end.

(** The sequence of shapes is that of the children that are shapes, one
    wrapper for each and in the same order. *)
Definition paired (c : collection) : Prop :=
  map _element (__shapes c) =
  filter (fun elm => negb (skipped elm)) (iterchildren (__spTree c)).

(** The placeholder has this idx. *)
Definition has_idx (k : Z) (ph : placeholder) : bool :=
  match idx ph with
  | Ok i => (i =? k)%Z
  | Raise _ => false
  end.

(** The idx of the first is not above that of the second. *)
Definition idx_le (p q : placeholder) : Prop :=
  exists i j, idx p = Ok i /\ idx q = Ok j /\ (i <= j)%Z.

(** A layout shape that is a placeholder of another type than the three
    latent ones. *)
Definition to_clone (K : imports) (sp : shape) : bool :=
  is_placeholder sp
  && negb (String.eqb (type (_Placeholder sp)) (PH_TYPE_DT K))
  && negb (String.eqb (type (_Placeholder sp)) (PH_TYPE_SLDNUM K))
  && negb (String.eqb (type (_Placeholder sp)) (PH_TYPE_FTR K)).

(** The layout placeholders [phs] are cloned onto the collection one after
    the other, each with the id and the name the allocators give at that
    moment. *)
Inductive clones (K : imports) : collection -> list shape -> collection
                                 -> Prop :=
| Clones_nil c : clones K c [] c
| Clones_cons c layout_sp phs c' id_ shapename i :
    next_shape_id_of c = Ok id_ ->
    next_ph_name_of K (type (_Placeholder layout_sp)) id_
                    (orient (_Placeholder layout_sp)) c = Ok shapename ->
    idx (_Placeholder layout_sp) = Ok i ->
    clones K
      (appended c
         (new_placeholder_sp id_ shapename (type (_Placeholder layout_sp))
            (orient (_Placeholder layout_sp)) (sz (_Placeholder layout_sp))
            i)
         (_Shape
            (new_placeholder_sp id_ shapename
               (type (_Placeholder layout_sp))
               (orient (_Placeholder layout_sp))
               (sz (_Placeholder layout_sp)) i)))
      phs c' ->
    clones K c (layout_sp :: phs) c'.

(** The new placeholder element is a placeholder with the type, the
    orientation, the size and the idx of the layout placeholder. *)
Definition copy_of (layout_sp : shape) (sp : element) : Prop :=
  tag sp = _SP /\
  is_placeholder (_Shape sp) = true /\
  type (_Placeholder (_Shape sp)) = type (_Placeholder layout_sp) /\
  orient (_Placeholder (_Shape sp)) = orient (_Placeholder layout_sp) /\
  sz (_Placeholder (_Shape sp)) = sz (_Placeholder layout_sp) /\
  exists i, idx (_Placeholder layout_sp) = Ok i /\
            idx (_Placeholder (_Shape sp)) = Ok i.

(** The call is one of the four adds. *)
Definition is_add (k : call) : bool :=
  match k with
  | Clone_layout_placeholders _ => false
  | _ => true
  end.

(** A method that, when it returns a shape, has appended the element of
    that shape to the tree and the shape to the sequence, once each and
    nothing else, and that has changed nothing when it raises. *)
Definition appends_one (m : M shape) : Prop :=
  forall c,
    match m c with
    | (Ok s, c') => c' = appended c (_element s) s
    | (Raise _, c') => c' = c
    end.

(** The collection after a sequence of calls, the first one first. *)
Definition exec_all (K : imports) (ks : list call) (c : collection)
  : collection :=
  fold_left (fun c k => exec K k c) ks c.

(* ====================================================================== *)
(** * Further methods and notions *)

(** Modelled from the spec: [_BaseShape._is_title] of [pptx.shape] is not
    among the sources; a shape is a title when it is a placeholder whose
    type denotes a title.  The types that do are a parameter. *)
Definition _is_title (title_types : list string) (s : shape) : bool :=
  is_placeholder s
  && existsb (String.eqb (type (_Placeholder s))) title_types.

(** [title]: the first title shape of the collection, or [None]. *)
Fixpoint first_title (title_types : list string) (shapes : list shape)
  : option shape :=
  match shapes with
  | [] => None
  | shape :: rest =>
      if _is_title title_types shape then Some shape
      else first_title title_types rest
  end.

Definition title (title_types : list string) (c : collection)
  : option shape :=
  first_title title_types (__shapes c).

(** What a call hands back: the new shape of an add, nothing for
    [_clone_layout_placeholders], or the exception. *)
Definition returned (K : imports) (k : call) (c : collection)
  : result (option shape) :=
  match k with
  | Add_picture f l t w h =>
      rbind (fst (add_picture f l t w h c)) (fun s => Ok (Some s))
  | Add_shape a l t w h =>
      rbind (fst (add_shape K a l t w h c)) (fun s => Ok (Some s))
  | Add_table r n l t w h =>
      rbind (fst (add_table r n l t w h c)) (fun s => Ok (Some s))
  | Add_textbox l t w h =>
      rbind (fst (add_textbox l t w h c)) (fun s => Ok (Some s))
  | Clone_layout_placeholders sps =>
      rbind (fst (_clone_layout_placeholders K sps c)) (fun _ => Ok None)
  end.

(** The basename an add puts in front of the number. *)
Definition call_basename (K : imports) (k : call) : option string :=
  match k with
  | Add_picture _ _ _ _ _ => Some "Picture"
  | Add_shape a _ _ _ _ =>
      match _AutoShapeType K a with
      | Ok autoshape_type => Some (basename autoshape_type)
      | Raise _ => None
      end
  | Add_table _ _ _ _ _ _ => Some "Table"
  | Add_textbox _ _ _ _ => Some "TextBox"
  | Clone_layout_placeholders _ => None
  end.

(** A [cNvPr] element named the way the adds name: whenever its name reads
    as a basename and a number, the number is its id less one. *)
Definition conventional_attribs (a : list (string * string)) : Prop :=
  forall b n, lookup_attr a "name" = Some (fmt_s_d b n) ->
              id_of_attribs a = Ok (n + 1)%Z.

Definition conventional (root : element) : Prop :=
  Forall conventional_attribs (cNvPr_attribs root).

(** The constructor has accepted the tree and given this sequence. *)
Definition in_sync (c : collection) : Prop :=
  unmarshal (__spTree c) = Ok (__shapes c).

(** A slide with a shape whose id is not a number. *)
Definition sample_malformed : collection :=
  sample_sld (Element (qn "p:spTree") []
    [sample_nvGrpSpPr; Element _GRPSPPR [] [];
     Element _SP []
       [Element (qn "p:nvSpPr") []
          [Element _CNVPR [("id", "x"); ("name", "Oval 1")] [];
           Element (qn "p:cNvSpPr") [] [];
           Element _NVPR [] []]]]).

(** A decimal digit. *)
Definition is_digit (a : ascii) : bool :=
  let n := nat_of_ascii a in (48 <=? n)%nat && (n <=? 57)%nat.

(** Every character of the text is a decimal digit. *)
Fixpoint all_digits (s : string) : bool :=
  match s with
  | EmptyString => true
  | String a s' => is_digit a && all_digits s'
  end.

(** Whether a blank occurs in the text. *)
Fixpoint has_blank (s : string) : bool :=
  match s with
  | EmptyString => false
  | String a s' => Ascii.eqb a " " || has_blank s'
  end.

(** A layout whose second placeholder has a type without a basename in
    the sample table. *)
Definition sample_layout_chart : list shape :=
  [_Shape (new_placeholder_sp 2 "Title 1" "title" "horz" "full" 0);
   _Shape (new_placeholder_sp 3 "Chart Placeholder 2" "chart" "horz"
                              "half" 1);
   _Shape (new_placeholder_sp 4 "Text Placeholder 3" "body" "horz"
                              "half" 2)].

(* ====================================================================== *)
(** * Numbers in text *)

Module Text.

Lemma digit_plain (a : ascii) :
  is_digit a = true ->
  is_space a = false /\ Ascii.eqb a "_" = false
  /\ Ascii.eqb a "-" = false /\ Ascii.eqb a "+" = false.
Proof.
  destruct a as [[] [] [] [] [] [] [] []]; intros H;
    try discriminate H; repeat split; reflexivity.
Qed.

Lemma uint_all_digits (d : Decimal.uint) :
  all_digits (NilEmpty.string_of_uint d) = true.
Proof.
  induction d; simpl; auto.
Qed.

Lemma uint_nonempty (d : Decimal.uint) :
  d <> Decimal.Nil -> NilEmpty.string_of_uint d <> EmptyString.
Proof.
  destruct d; simpl; intros H; try discriminate. now elim H.
Qed.

Lemma lstrip_digits (s : string) : all_digits s = true -> lstrip s = s.
Proof.
  destruct s as [|a s]; simpl; [reflexivity|].
  intros H. apply andb_prop in H as [Ha _].
  now rewrite (proj1 (digit_plain a Ha)).
Qed.

Lemma rstrip_digits (s : string) : all_digits s = true -> rstrip s = s.
Proof.
  induction s as [|a s IH]; simpl; [reflexivity|].
  intros H. apply andb_prop in H as [Ha Hs].
  rewrite (IH Hs), (proj1 (digit_plain a Ha)). now destruct s.
Qed.

Lemma ungroup_digits (s : string) :
  all_digits s = true -> s <> EmptyString ->
  forall after_digit, ungroup after_digit s = Some s.
Proof.
  induction s as [|a s IH]; simpl; intros H Hne after_digit;
    [now elim Hne|].
  apply andb_prop in H as [Ha Hs].
  destruct (digit_plain a Ha) as (_ & -> & _).
  destruct s as [|b s]; [reflexivity|].
  now rewrite (IH Hs).
Qed.

(** The digits of a number are read as that number, with a minus sign in
    front as its opposite. *)
Lemma int_literal_uint (d : Decimal.uint) :
  d <> Decimal.Nil ->
  int_literal (NilEmpty.string_of_uint d) = Some (Z.of_uint d) /\
  int_literal (String "-" (NilEmpty.string_of_uint d))
  = Some (- Z.of_uint d)%Z.
Proof.
  intros Hd.
  pose proof (uint_all_digits d) as Hall.
  pose proof (uint_nonempty d Hd) as Hne.
  assert (Hdigits : digits (NilEmpty.string_of_uint d) = Some d).
  { unfold digits. rewrite (ungroup_digits _ Hall Hne).
    pose proof (NilZero.usu d Hd) as Hu.
    unfold NilZero.string_of_uint in Hu. now destruct d. }
  unfold int_literal, strip. split.
  - rewrite (lstrip_digits _ Hall), (rstrip_digits _ Hall).
    destruct (NilEmpty.string_of_uint d) as [|a r] eqn:E; [now elim Hne|].
    cbn [all_digits] in Hall. apply andb_prop in Hall as [Ha _].
    destruct (digit_plain a Ha) as (_ & _ & -> & ->).
    now rewrite Hdigits.
  - cbn [lstrip]. change (is_space "-") with false. cbv iota.
    cbn [rstrip]. rewrite (rstrip_digits _ Hall).
    destruct (NilEmpty.string_of_uint d) as [|a r] eqn:E; [now elim Hne|].
    change (Ascii.eqb "-" "-") with true. cbv iota.
    now rewrite Hdigits.
Qed.

(** Reading back a number that was formatted gives the number. *)
Lemma int_fmt_d (z : Z) : int (Some (fmt_d z)) = Ok z.
Proof.
  unfold int, fmt_d.
  destruct z as [|p|p]; cbn [Z.to_int NilZero.string_of_int].
  - reflexivity.
  - pose proof (DecimalPos.Unsigned.to_uint_nonnil p) as Hp.
    replace (NilZero.string_of_uint (Pos.to_uint p))
      with (NilEmpty.string_of_uint (Pos.to_uint p))
      by (unfold NilZero.string_of_uint; now destruct (Pos.to_uint p)).
    rewrite (proj1 (int_literal_uint _ Hp)). f_equal.
    exact (DecimalZ.of_to (Z.pos p)).
  - pose proof (DecimalPos.Unsigned.to_uint_nonnil p) as Hp.
    replace (NilZero.string_of_uint (Pos.to_uint p))
      with (NilEmpty.string_of_uint (Pos.to_uint p))
      by (unfold NilZero.string_of_uint; now destruct (Pos.to_uint p)).
    rewrite (proj2 (int_literal_uint _ Hp)). f_equal.
    exact (DecimalZ.of_to (Z.neg p)).
Qed.

Lemma fmt_d_inj (n m : Z) : fmt_d n = fmt_d m -> n = m.
Proof.
  intros H.
  assert (E : int (Some (fmt_d n)) = int (Some (fmt_d m))) by now rewrite H.
  rewrite !int_fmt_d in E. congruence.
Qed.

Lemma append_cancel_l (p s t : string) :
  (p ++ s)%string = (p ++ t)%string -> s = t.
Proof.
  induction p as [|a p IH]; simpl; intros H.
  - exact H.
  - injection H as H. auto.
Qed.

(** Two names over one basename are equal only when their numbers are. *)
Lemma fmt_s_d_inj (b : string) (n m : Z) :
  fmt_s_d b n = fmt_s_d b m -> n = m.
Proof.
  unfold fmt_s_d. intros H.
  apply append_cancel_l in H. apply append_cancel_l in H.
  now apply fmt_d_inj.
Qed.

End Text.

(* ====================================================================== *)
(** * Results *)

Module Results.

Lemma mapM_app {A B : Type} (f : A -> result B) (l1 l2 : list A)
    (r : list B) :
  mapM f (l1 ++ l2) = Ok r <->
  exists r1 r2, mapM f l1 = Ok r1 /\ mapM f l2 = Ok r2 /\ r = r1 ++ r2.
Proof.
  revert r. induction l1 as [|a l1 IH]; simpl; intros r.
  - split.
    + intros H. exists [], r. auto.
    + intros (r1 & r2 & [= <-] & H2 & ->). exact H2.
  - destruct (f a) as [b|e]; simpl.
    + destruct (mapM f (l1 ++ l2)) as [bs|e] eqn:E; simpl.
      * destruct (proj1 (IH bs) eq_refl) as (r1 & r2 & H1 & H2 & ->).
        rewrite H1. simpl. split.
        -- intros [= <-]. exists (b :: r1), r2. auto.
        -- intros (q1 & q2 & [= <-] & H2' & ->).
           rewrite H2 in H2'. now injection H2' as <-.
      * split; [discriminate|].
        intros (q1 & q2 & H1 & H2 & ->).
        destruct (mapM f l1) as [r1|] eqn:E1; simpl in H1; [|discriminate].
        assert (X : @Raise (list B) e = Ok (r1 ++ q2)).
        { apply (IH (r1 ++ q2)). exists r1, q2. auto. }
        discriminate.
    + split; [discriminate|]. intros (q1 & q2 & H1 & _). discriminate.
Qed.

Lemma mapM_map {A B C : Type} (g : A -> B) (f : B -> result C)
    (l : list A) :
  mapM f (map g l) = mapM (fun a => f (g a)) l.
Proof.
  induction l as [|a l IH]; simpl; [reflexivity|]. now rewrite IH.
Qed.

Lemma mapM_length {A B : Type} (f : A -> result B) (l : list A)
    (r : list B) :
  mapM f l = Ok r -> List.length r = List.length l.
Proof.
  revert r. induction l as [|a l IH]; simpl; intros r.
  - now intros [= <-].
  - destruct (f a); simpl; [|discriminate].
    destruct (mapM f l); simpl; [|discriminate].
    intros [= <-]. simpl. f_equal. now apply IH.
Qed.

(** When every element is read, the comprehension returns. *)
Lemma mapM_total {A B : Type} (f : A -> result B) (l : list A) :
  Forall (fun a => exists b, f a = Ok b) l -> exists r, mapM f l = Ok r.
Proof.
  induction 1 as [|a l [b Hb] _ [r Hr]]; simpl.
  - now exists [].
  - rewrite Hb, Hr. simpl. now exists (b :: r).
Qed.

End Results.

(* ====================================================================== *)
(** * The stable sort *)

Module Sorting.
Section Facts.
Context {A : Type} (key : A -> Z).

Lemma insert_front_perm (x : A) (l : list A) :
  Permutation (insert_front key x l) (x :: l).
Proof.
  induction l as [|y l IH]; simpl.
  - reflexivity.
  - destruct (key y <? key x)%Z.
    + rewrite IH. apply perm_swap.
    + reflexivity.
Qed.

Lemma sort_perm (l : list A) : Permutation (sort key l) l.
Proof.
  induction l as [|x l IH]; simpl.
  - reflexivity.
  - rewrite insert_front_perm. now constructor.
Qed.

Lemma insert_front_sorted (x : A) (l : list A) :
  StronglySorted (key_le key) l -> StronglySorted (key_le key) (insert_front key x l).
Proof.
  induction 1 as [|y l Hs IH Hy]; simpl.
  - repeat constructor.
  - destruct (Z.ltb_spec (key y) (key x)) as [Hlt|Hge].
    + constructor; [exact IH|].
      apply (Permutation_Forall (x := x :: l)).
      * symmetry. apply insert_front_perm.
      * constructor; [unfold key_le; lia | exact Hy].
    + constructor; [now constructor|].
      constructor; [exact Hge|].
      eapply Forall_impl; [|exact Hy].
      unfold key_le. intros a Ha. lia.
Qed.

Lemma sort_sorted (l : list A) : StronglySorted (key_le key) (sort key l).
Proof.
  induction l as [|x l IH]; simpl.
  - constructor.
  - now apply insert_front_sorted.
Qed.

Lemma insert_front_filter (k : Z) (x : A) (l : list A) :
  filter (fun a => (key a =? k)%Z) (insert_front key x l) =
  filter (fun a => (key a =? k)%Z) (x :: l).
Proof.
  induction l as [|y l IH]; simpl.
  - reflexivity.
  - destruct (Z.ltb_spec (key y) (key x)) as [Hlt|Hge]; [|reflexivity].
    simpl. rewrite IH. simpl.
    destruct (Z.eqb_spec (key x) k) as [Hx|Hx];
      destruct (Z.eqb_spec (key y) k) as [Hy|Hy]; try reflexivity.
    lia.
Qed.

(** The elements of one key come out in the order they went in. *)
Lemma sort_stable (k : Z) (l : list A) :
  filter (fun a => (key a =? k)%Z) (sort key l) =
  filter (fun a => (key a =? k)%Z) l.
Proof.
  induction l as [|x l IH]; simpl.
  - reflexivity.
  - rewrite insert_front_filter. simpl. now rewrite IH.
Qed.

End Facts.
End Sorting.

(* ====================================================================== *)
(** * Documents and their [cNvPr] elements *)

Module Doc.

Lemma scan_flat_map (cs : list element) :
  map attrib (filter is_cNvPr (flat_map iterdescendants cs)) =
  flat_map cNvPr_attribs cs.
Proof.
  induction cs as [|c cs IH]; simpl.
  - reflexivity.
  - rewrite filter_app, map_app, IH. reflexivity.
Qed.

Lemma cNvPr_attribs_unfold (t : string) (a : list (string * string))
    (cs : list element) :
  cNvPr_attribs (Element t a cs) =
  (if String.eqb t _CNVPR then [a] else []) ++ flat_map cNvPr_attribs cs.
Proof.
  unfold cNvPr_attribs at 1. simpl iterdescendants. simpl filter.
  unfold is_cNvPr at 1. simpl tag.
  destruct (String.eqb t _CNVPR); simpl; now rewrite scan_flat_map.
Qed.

Lemma flat_map_app' {A B : Type} (f : A -> list B) (l1 l2 : list A) :
  flat_map f (l1 ++ l2) = flat_map f l1 ++ flat_map f l2.
Proof.
  induction l1 as [|a l1 IH]; simpl; [reflexivity|].
  now rewrite IH, app_assoc.
Qed.

(** Appending a child adds its [cNvPr] elements after those of the tree. *)
Lemma cNvPr_attribs_append (e new : element) :
  cNvPr_attribs (append e new) = cNvPr_attribs e ++ cNvPr_attribs new.
Proof.
  destruct e as [t a cs]. unfold append.
  rewrite !cNvPr_attribs_unfold, flat_map_app'. simpl.
  now rewrite app_nil_r, app_assoc.
Qed.

(** The [cNvPr] elements around an element of the document do not depend
    on the element. *)
Lemma cNvPr_attribs_getroot (ctx : list frame) :
  exists pre post, forall e,
    cNvPr_attribs (getroot ctx e) = pre ++ cNvPr_attribs e ++ post.
Proof.
  induction ctx as [|[t a l r] ctx (pre & post & IH)]; simpl.
  - exists [], []. intros e. simpl. now rewrite app_nil_r.
  - exists (pre ++ (if String.eqb t _CNVPR then [a] else [])
                ++ flat_map cNvPr_attribs l),
           (flat_map cNvPr_attribs r ++ post).
    intros e. rewrite IH, cNvPr_attribs_unfold, flat_map_app'. simpl.
    now rewrite <- !app_assoc.
Qed.

(** What a document gains when a collection in it is appended to. *)
Lemma document_appended (c : collection) (elm : element) (s : shape) :
  exists pre post,
    cNvPr_attribs (document c) = pre ++ post /\
    cNvPr_attribs (document (appended c elm s)) =
      pre ++ cNvPr_attribs elm ++ post.
Proof.
  destruct (cNvPr_attribs_getroot (ctx c)) as (pre & post & H).
  exists (pre ++ cNvPr_attribs (__spTree c)), post.
  unfold document, appended. simpl. rewrite !H, cNvPr_attribs_append.
  now rewrite <- !app_assoc.
Qed.

Lemma shape_ids_eq (c : collection) : shape_ids c = ids_of (document c).
Proof.
  unfold shape_ids, ids_of, cNvPr_attribs, xpath_cNvPr.
  now rewrite Results.mapM_map.
Qed.

Lemma xpath_cNvPr_name_eq (c : collection) :
  xpath_cNvPr_name c = names_of (document c).
Proof.
  unfold xpath_cNvPr_name, names_of, cNvPr_attribs, xpath_cNvPr.
  induction (filter _ (iterdescendants (document c))) as [|e l IH]; simpl.
  - reflexivity.
  - now rewrite IH.
Qed.

(** The ids after an element with a single [cNvPr] has been appended. *)
Lemma ids_appended (c : collection) (elm : element) (s : shape)
    (a : list (string * string)) (i : Z) (ids : list Z) :
  cNvPr_attribs elm = [a] ->
  id_of_attribs a = Ok i ->
  ids_of (document c) = Ok ids ->
  exists ids', ids_of (document (appended c elm s)) = Ok ids' /\
               Permutation (i :: ids) ids'.
Proof.
  intros Ha Hi Hids.
  destruct (document_appended c elm s) as (pre & post & H0 & H1).
  unfold ids_of in *. rewrite H0 in Hids. rewrite H1, Ha.
  apply Results.mapM_app in Hids as (r1 & r2 & Hr1 & Hr2 & ->).
  exists (r1 ++ [i] ++ r2). split.
  - apply Results.mapM_app. exists r1, ([i] ++ r2). repeat split; auto.
    apply Results.mapM_app. exists [i], r2. repeat split; auto.
    simpl. now rewrite Hi.
  - simpl. apply Permutation_middle.
Qed.

(** The names after such an element has been appended. *)
Lemma names_appended (c : collection) (elm : element) (s : shape)
    (a : list (string * string)) :
  cNvPr_attribs elm = [a] ->
  Permutation (name_of_attribs a ++ names_of (document c))
              (names_of (document (appended c elm s))).
Proof.
  intros Ha.
  destruct (document_appended c elm s) as (pre & post & H0 & H1).
  unfold names_of. rewrite H0, H1, Ha, !flat_map_app'. simpl.
  rewrite app_nil_r. apply Permutation_app_swap_app.
Qed.

End Doc.

(* ====================================================================== *)
(** * The id allocator: the loop over the sorted ids *)

Module Ids.

(** Whatever the ids are, the loop ends on a number that is none of them. *)
Lemma first_gap_fresh (l : list Z) :
  StronglySorted Z.le l ->
  forall n, (n <= first_gap l n)%Z /\ ~ In (first_gap l n) l.
Proof.
  induction 1 as [|i l Hs IH Hi]; intros n; simpl.
  - split; [lia | tauto].
  - destruct (Z.gtb_spec i n) as [Hgt|Hle].
    + split; [lia|]. intros [E|Hin]; [lia|].
      rewrite Forall_forall in Hi. specialize (Hi _ Hin). lia.
    + destruct (IH (n + 1)%Z) as [Hge Hnin].
      split; [lia|]. intros [E|Hin]; [lia | auto].
Qed.

(** On distinct ids that are all at least [n], every number from [n] up to
    the result is one of the ids. *)
Lemma first_gap_least (l : list Z) :
  StronglySorted Z.le l -> NoDup l ->
  forall n, Forall (fun i => n <= i)%Z l ->
  forall k, (n <= k < first_gap l n)%Z -> In k l.
Proof.
  induction 1 as [|i l Hs IH Hi]; intros Hnd n Hn k Hk; simpl in *.
  - lia.
  - inversion Hnd as [|? ? Hnotin Hnd']; subst.
    inversion Hn as [|? ? Hni Hnl]; subst.
    destruct (Z.gtb_spec i n) as [Hgt|Hle]; [lia|].
    assert (i = n) by lia. subst i.
    destruct (Z.eq_dec k n) as [->|Hne]; [now left|]. right.
    apply (IH Hnd' (n + 1)%Z); [|lia].
    rewrite Forall_forall in *. intros j Hj.
    specialize (Hi j Hj). specialize (Hnl j Hj).
    assert (j <> n) by (intros ->; contradiction). lia.
Qed.

Lemma sorted_ids (ids : list Z) :
  StronglySorted Z.le (sort (fun i => i) ids).
Proof. exact (Sorting.sort_sorted (fun i => i) ids). Qed.

(** The allocator returns whenever the ids can all be read, and what it
    returns is positive and not an id of the document. *)
Lemma next_shape_id_fresh (c : collection) (ids : list Z) :
  ids_of (document c) = Ok ids ->
  exists i, next_shape_id_of c = Ok i /\ (1 <= i)%Z /\ ~ In i ids.
Proof.
  intros H. unfold next_shape_id_of. rewrite Doc.shape_ids_eq, H. simpl.
  destruct (first_gap_fresh _ (sorted_ids ids) 1%Z) as [Hge Hnin].
  eexists. split; [reflexivity|]. split; [exact Hge|].
  intros Hin. apply Hnin.
  eapply Permutation_in; [|exact Hin].
  symmetry. apply Sorting.sort_perm.
Qed.

Lemma next_shape_id_inv (c : collection) (i : Z) :
  next_shape_id_of c = Ok i ->
  exists ids, ids_of (document c) = Ok ids /\
              i = first_gap (sort (fun i => i) ids) 1%Z.
Proof.
  unfold next_shape_id_of. rewrite Doc.shape_ids_eq.
  destruct (ids_of (document c)) as [ids|e]; simpl; [|discriminate].
  intros [= <-]. now exists ids.
Qed.

End Ids.

(* ====================================================================== *)
(** * The node builders *)

Module Builders.

Lemma identified_new_pic id nm desc rId l t w h :
  identified_by (new_pic id nm desc rId l t w h) id nm.
Proof. eexists. reflexivity. Qed.

Lemma identified_new_autoshape_sp id nm prst l t w h :
  identified_by (new_autoshape_sp id nm prst l t w h) id nm.
Proof. eexists. reflexivity. Qed.

Lemma identified_new_textbox_sp id nm l t w h :
  identified_by (new_textbox_sp id nm l t w h) id nm.
Proof. eexists. reflexivity. Qed.

Lemma identified_new_placeholder_sp id nm ty ori size i :
  identified_by (new_placeholder_sp id nm ty ori size i) id nm.
Proof. eexists. reflexivity. Qed.

Lemma no_cNvPr_repeat (e : element) (n : nat) :
  cNvPr_attribs e = [] -> flat_map cNvPr_attribs (repeat e n) = [].
Proof.
  intros H. induction n as [|n IH]; simpl; [reflexivity|].
  now rewrite H, IH.
Qed.

Lemma identified_new_table id nm rows cols l t w h :
  identified_by (new_table id nm rows cols l t w h) id nm.
Proof.
  exists []. unfold new_table.
  set (gridCol := Element (qn "a:gridCol") _ []).
  set (tr := Element (qn "a:tr") _ _).
  set (tbl := Element (qn "a:tbl") _ _).
  assert (Hg : cNvPr_attribs gridCol = []) by reflexivity.
  assert (Ht : cNvPr_attribs tr = []).
  { unfold tr. rewrite Doc.cNvPr_attribs_unfold.
    rewrite no_cNvPr_repeat; reflexivity. }
  assert (Hb : cNvPr_attribs tbl = []).
  { unfold tbl. rewrite Doc.cNvPr_attribs_unfold. cbn [flat_map].
    rewrite Doc.cNvPr_attribs_unfold.
    rewrite !no_cNvPr_repeat by assumption. reflexivity. }
  clearbody tbl.
  rewrite Doc.cNvPr_attribs_unfold.
  change (String.eqb _GRAPHICFRAME _CNVPR) with false.
  cbn [flat_map app].
  set (nv := Element (qn "p:nvGraphicFramePr") _ _).
  set (xf := xfrm _ _ _ _ _).
  change (cNvPr_attribs nv) with [[("id", fmt_d id); ("name", nm)]].
  change (cNvPr_attribs xf) with (@nil (list (string * string))).
  rewrite !Doc.cNvPr_attribs_unfold.
  cbn [flat_map app].
  rewrite Doc.cNvPr_attribs_unfold. cbn [flat_map app].
  rewrite Hb. reflexivity.
Qed.

Lemma has_table_new_table id nm rows cols l t w h :
  has_table (new_table id nm rows cols l t w h) = true.
Proof. reflexivity. Qed.

End Builders.

(* ====================================================================== *)
(** * The placeholder name allocator: the collision loop *)

Module Names.

Lemma in_names_iff (nm : string) (names : list string) :
  in_names nm names = true <-> In nm names.
Proof.
  unfold in_names. rewrite existsb_exists. split.
  - intros (x & Hx & E). apply String.eqb_eq in E. now subst.
  - intros H. exists nm. split; [exact H | apply String.eqb_refl].
Qed.

Lemma in_names_false (nm : string) (names : list string) :
  in_names nm names = false <-> ~ In nm names.
Proof.
  rewrite <- in_names_iff. destruct (in_names nm names); split; intros H;
    try discriminate; try reflexivity; try (exfalso; now apply H).
Qed.

(** What the loop returns is the first name, counting up from [numpart],
    that is not taken. *)
Lemma ph_name_loop_some (bound : nat) (b : string) (names : list string) :
  forall n nm, ph_name_loop bound b n names = Some nm ->
  exists m, (n <= m)%Z /\ nm = fmt_s_d b m /\ ~ In nm names /\
            forall k, (n <= k < m)%Z -> In (fmt_s_d b k) names.
Proof.
  induction bound as [|bound IH]; simpl; intros n nm H; [discriminate|].
  destruct (in_names (fmt_s_d b n) names) eqn:E; simpl in H.
  - apply IH in H as (m & Hm & -> & Hnin & Hbelow).
    exists m. repeat split; [lia | exact Hnin |].
    intros k Hk. destruct (Z.eq_dec k n) as [->|Hne].
    + now apply in_names_iff.
    + apply Hbelow. lia.
  - injection H as <-. exists n. repeat split; [lia | | lia].
    now apply in_names_false.
Qed.

(** A loop that has used up its bound has met a taken name in every
    round. *)
Lemma ph_name_loop_none (bound : nat) (b : string) (names : list string) :
  forall n, ph_name_loop bound b n names = None ->
  forall i, (i < bound)%nat -> In (fmt_s_d b (n + Z.of_nat i)) names.
Proof.
  induction bound as [|bound IH]; simpl; intros n H i Hi; [lia|].
  destruct (in_names (fmt_s_d b n) names) eqn:E; simpl in H; [|discriminate].
  destruct i as [|i].
  - rewrite Z.add_0_r. now apply in_names_iff.
  - replace (n + Z.of_nat (S i))%Z with ((n + 1) + Z.of_nat i)%Z by lia.
    apply IH; [exact H | lia].
Qed.

(** One round more than there are names is enough: the names tried are all
    different, so they cannot all be taken. *)
Lemma ph_name_loop_ends (b : string) (n : Z) (names : list string) :
  exists nm, ph_name_loop (S (List.length names)) b n names = Some nm.
Proof.
  destruct (ph_name_loop (S (List.length names)) b n names) as [nm|] eqn:E.
  - now exists nm.
  - exfalso.
    pose proof (ph_name_loop_none _ _ _ _ E) as Hall.
    set (tried := map (fun i => fmt_s_d b (n + Z.of_nat i))
                      (seq 0 (S (List.length names)))).
    assert (Hnd : NoDup tried).
    { apply Finite.Injective_map_NoDup; [|apply seq_NoDup].
      intros i j Hij. apply Text.fmt_s_d_inj in Hij. lia. }
    assert (Hincl : incl tried names).
    { intros x Hx. apply in_map_iff in Hx as (i & <- & Hi).
      apply in_seq in Hi. apply Hall. lia. }
    pose proof (NoDup_incl_length Hnd Hincl) as Hlen.
    unfold tried in Hlen. rewrite length_map, length_seq in Hlen. lia.
Qed.

(** More rounds than needed change nothing. *)
Lemma ph_name_loop_more (bound extra : nat) (b : string)
    (names : list string) :
  forall n nm, ph_name_loop bound b n names = Some nm ->
               ph_name_loop (bound + extra) b n names = Some nm.
Proof.
  induction bound as [|bound IH]; simpl; intros n nm H; [discriminate|].
  destruct (in_names (fmt_s_d b n) names); simpl in *; auto.
Qed.

Lemma next_ph_name_ok (K : imports) (ty : string) (id : Z) (ori : string)
    (c : collection) (b : string) :
  slide_ph_basenames K ty = Some b ->
  exists nm, next_ph_name_of K ty id ori c = Ok nm /\
    ph_name_loop (S (List.length (xpath_cNvPr_name c)))
      (if String.eqb ori (PH_ORIENT_VERT K)
       then ("Vertical " ++ b)%string else b)
      (id - 1) (xpath_cNvPr_name c) = Some nm.
Proof.
  intros Hb. unfold next_ph_name_of. rewrite Hb.
  destruct (ph_name_loop_ends
              (if String.eqb ori (PH_ORIENT_VERT K)
               then ("Vertical " ++ b)%string else b)
              (id - 1) (xpath_cNvPr_name c)) as [nm Hnm].
  rewrite Hnm. now exists nm.
Qed.

(** A name the allocator returns is not a name of the document. *)
Lemma next_ph_name_unused (K : imports) (ty : string) (id : Z)
    (ori : string) (c : collection) (nm : string) :
  next_ph_name_of K ty id ori c = Ok nm ->
  ~ In nm (names_of (document c)).
Proof.
  unfold next_ph_name_of.
  destruct (slide_ph_basenames K ty) as [b|]; [|discriminate].
  destruct (ph_name_loop _ _ _ _) as [nm'|] eqn:E; [|discriminate].
  intros [= <-].
  apply ph_name_loop_some in E as (m & _ & _ & Hnin & _).
  now rewrite <- Doc.xpath_cNvPr_name_eq.
Qed.

End Names.

(* ====================================================================== *)
(** * What a call does to the collection *)

Module Calls.
Section WithImports.
Context (K : imports).

Lemma add_picture_run file l t w h c :
  add_picture file l t w h c =
  match __slide c with
  | None => (Raise AttributeError, c)
  | Some sl =>
      match next_shape_id_of c with
      | Raise e => (Raise e, c)
      | Ok id =>
          let image := fst (_add_image sl file) in
          let rel := snd (_add_image sl file) in
          let pic :=
            new_pic id (fmt_s_d "Picture" (id - 1)) (_desc image) (_rId rel)
                    l t (fst (_scale image w h)) (snd (_scale image w h)) in
          (Ok (_Picture pic), appended c pic (_Picture pic))
      end
  end.
Proof.
  unfold add_picture, bind, slide_add_image, __next_shape_id, reading.
  destruct (__slide c) as [sl|]; [|reflexivity].
  destruct (_add_image sl file) as [image rel].
  destruct (next_shape_id_of c) as [id|e]; [|reflexivity].
  simpl. destruct (_scale image w h). reflexivity.
Qed.

Lemma add_shape_run a l t w h c :
  add_shape K a l t w h c =
  match _AutoShapeType K a with
  | Raise e => (Raise e, c)
  | Ok autoshape_type =>
      match next_shape_id_of c with
      | Raise e => (Raise e, c)
      | Ok id =>
          let sp :=
            new_autoshape_sp id
              (fmt_s_d (basename autoshape_type) (id - 1))
              (prst autoshape_type) l t w h in
          (Ok (_Shape sp), appended c sp (_Shape sp))
      end
  end.
Proof.
  unfold add_shape, bind, lift, __next_shape_id, reading.
  destruct (_AutoShapeType K a); [|reflexivity].
  destruct (next_shape_id_of c); reflexivity.
Qed.

Lemma add_table_run rows cols l t w h c :
  add_table rows cols l t w h c =
  match next_shape_id_of c with
  | Raise e => (Raise e, c)
  | Ok id =>
      let graphicFrame :=
        new_table id (fmt_s_d "Table" (id - 1)) rows cols l t w h in
      (Ok (_Table graphicFrame),
       appended c graphicFrame (_Table graphicFrame))
  end.
Proof.
  unfold add_table, bind, __next_shape_id, reading.
  destruct (next_shape_id_of c); reflexivity.
Qed.

Lemma add_textbox_run l t w h c :
  add_textbox l t w h c =
  match next_shape_id_of c with
  | Raise e => (Raise e, c)
  | Ok id =>
      let sp := new_textbox_sp id (fmt_s_d "TextBox" (id - 1)) l t w h in
      (Ok (_Shape sp), appended c sp (_Shape sp))
  end.
Proof.
  unfold add_textbox, bind, __next_shape_id, reading.
  destruct (next_shape_id_of c); reflexivity.
Qed.

Lemma clone_layout_placeholder_run layout_ph c :
  __clone_layout_placeholder K layout_ph c =
  match next_shape_id_of c with
  | Raise e => (Raise e, c)
  | Ok id =>
      match next_ph_name_of K (type layout_ph) id (orient layout_ph) c with
      | Raise e => (Raise e, c)
      | Ok shapename =>
          match idx layout_ph with
          | Raise e => (Raise e, c)
          | Ok i =>
              let sp :=
                new_placeholder_sp id shapename (type layout_ph)
                  (orient layout_ph) (sz layout_ph) i in
              (Ok (_Shape sp), appended c sp (_Shape sp))
          end
      end
  end.
Proof.
  unfold __clone_layout_placeholder, bind, lift, __next_shape_id,
    __next_ph_name, reading.
  destruct (next_shape_id_of c); [|reflexivity].
  destruct (next_ph_name_of K _ _ _ c); [|reflexivity].
  destruct (idx layout_ph); reflexivity.
Qed.

Lemma clone_loop_cons sp rest c :
  clone_loop K (sp :: rest) c =
  if cloned K sp then
    match __clone_layout_placeholder K (_Placeholder sp) c with
    | (Ok _, c') => clone_loop K rest c'
    | (Raise e, c') => (Raise e, c')
    end
  else clone_loop K rest c.
Proof.
  unfold cloned. cbn [clone_loop].
  destruct (is_placeholder sp); cbn [negb andb]; [|reflexivity].
  destruct (existsb _ _); reflexivity.
Qed.

(** ** Every call grows the collection by well-identified shapes *)

Lemma grown_weaken (P Q : collection -> Z -> string -> Prop) c c' :
  (forall d i n, P d i n -> Q d i n) -> grown P c c' -> grown Q c c'.
Proof.
  intros HPQ. induction 1; econstructor; eauto.
Qed.

Lemma grown_one (P : collection -> Z -> string -> Prop) c elm s id nm :
  next_shape_id_of c = Ok id -> identified_by elm id nm -> P c id nm ->
  unmarshal_child unmarshal elm = Ok (Some s) ->
  grown P c (appended c elm s).
Proof.
  intros. econstructor; eauto. constructor.
Qed.

Lemma grown_trans (P : collection -> Z -> string -> Prop) c1 c2 c3 :
  grown P c1 c2 -> grown P c2 c3 -> grown P c1 c3.
Proof.
  intros H12 H23. induction H23; [exact H12|]. econstructor; eauto.
Qed.

Lemma add_picture_grown file l t w h c :
  grown composed_name c (snd (add_picture file l t w h c)).
Proof.
  rewrite add_picture_run.
  destruct (__slide c); [|constructor].
  destruct (next_shape_id_of c) as [id|] eqn:E; [|constructor].
  simpl. eapply grown_one; eauto.
  - apply Builders.identified_new_pic.
  - now exists "Picture".
Qed.

Lemma add_shape_grown a l t w h c :
  grown composed_name c (snd (add_shape K a l t w h c)).
Proof.
  rewrite add_shape_run.
  destruct (_AutoShapeType K a) as [ast|]; [|constructor].
  destruct (next_shape_id_of c) as [id|] eqn:E; [|constructor].
  simpl. eapply grown_one; eauto.
  - apply Builders.identified_new_autoshape_sp.
  - now exists (basename ast).
Qed.

Lemma add_table_grown rows cols l t w h c :
  grown composed_name c (snd (add_table rows cols l t w h c)).
Proof.
  rewrite add_table_run.
  destruct (next_shape_id_of c) as [id|] eqn:E; [|constructor].
  simpl. eapply grown_one; eauto.
  - apply Builders.identified_new_table.
  - now exists "Table".
Qed.

Lemma add_textbox_grown l t w h c :
  grown composed_name c (snd (add_textbox l t w h c)).
Proof.
  rewrite add_textbox_run.
  destruct (next_shape_id_of c) as [id|] eqn:E; [|constructor].
  simpl. eapply grown_one; eauto.
  - apply Builders.identified_new_textbox_sp.
  - now exists "TextBox".
Qed.

Lemma clone_layout_placeholder_grown ph c :
  grown unused_name c (snd (__clone_layout_placeholder K ph c)).
Proof.
  rewrite clone_layout_placeholder_run.
  destruct (next_shape_id_of c) as [id|] eqn:E; [|constructor].
  destruct (next_ph_name_of K _ _ _ c) as [nm|] eqn:En; [|constructor].
  destruct (idx ph) as [i|]; [|constructor].
  simpl. eapply grown_one; eauto.
  - apply Builders.identified_new_placeholder_sp.
  - unfold unused_name. eapply Names.next_ph_name_unused; eauto.
Qed.

Lemma clone_loop_grown sps :
  forall c, grown unused_name c (snd (clone_loop K sps c)).
Proof.
  induction sps as [|sp rest IH]; intros c.
  - constructor.
  - rewrite clone_loop_cons. destruct (cloned K sp); [|apply IH].
    pose proof (clone_layout_placeholder_grown (_Placeholder sp) c) as H1.
    destruct (__clone_layout_placeholder K (_Placeholder sp) c)
      as [[s|e] c']; simpl in *.
    + eapply grown_trans; [exact H1 | apply IH].
    + exact H1.
Qed.

Lemma exec_grown (k : call) (c : collection) :
  grown (fun _ _ _ => True) c (exec K k c).
Proof.
  destruct k; simpl;
    eapply grown_weaken; try (intros; exact I).
  - apply add_picture_grown.
  - apply add_shape_grown.
  - apply add_table_grown.
  - apply add_textbox_grown.
  - apply clone_loop_grown.
Qed.

End WithImports.
End Calls.

(* ====================================================================== *)
(** * Unmarshaling *)

Module Unmarshaling.

(** Induction over an element and, with it, over all its children. *)
Lemma element_rect' (P : element -> Prop) :
  (forall t a cs, Forall P cs -> P (Element t a cs)) -> forall e, P e.
Proof.
  intros H. fix IH 1. intros [t a cs]. apply H.
  induction cs as [|c cs IHcs]; constructor; [apply IH | exact IHcs].
Qed.

Lemma tags_distinct :
  NoDup [_NVGRPSPPR; _GRPSPPR; _EXTLST; _SP; _PIC; _GRPSP; _GRAPHICFRAME;
         _CXNSP; _CONTENTPART].
Proof.
  repeat constructor; simpl; intuition discriminate.
Qed.

Ltac tag_cases t :=
  destruct (String.eqb_spec t _NVGRPSPPR) as [->|?];
  [|destruct (String.eqb_spec t _GRPSPPR) as [->|?];
    [|destruct (String.eqb_spec t _EXTLST) as [->|?];
      [|destruct (String.eqb_spec t _SP) as [->|?];
        [|destruct (String.eqb_spec t _PIC) as [->|?];
          [|destruct (String.eqb_spec t _GRPSP) as [->|?];
            [|destruct (String.eqb_spec t _GRAPHICFRAME) as [->|?];
              [|destruct (String.eqb_spec t _CXNSP) as [->|?];
                [|destruct (String.eqb_spec t _CONTENTPART)
                    as [->|?]]]]]]]]].

Lemma eqb_sym_false (s t : string) : s <> t -> String.eqb t s = false.
Proof. intros H. apply String.eqb_neq. congruence. Qed.

(** The chain of tests in [__init__] decides as the table says. *)
Lemma unmarshal_child_dispatched (elm : element) :
  dispatched elm (unmarshal_child unmarshal elm).
Proof.
  unfold dispatched, unmarshal_child, variant_of_tag.
  destruct elm as [t a cs]. cbn [tag].
  tag_cases t;
    try (cbn; first [reflexivity
                    | destruct (has_table _); reflexivity
                    | destruct (unmarshal_loop unmarshal cs []);
                      reflexivity]).
  cbn [dispatch_table lookup_variant orb].
  rewrite !eqb_sym_false by assumption.
  reflexivity.
Qed.

(** A child that is wrapped is wrapped as itself, and is not one of the
    skipped ones; a skipped one gives no shape. *)
Lemma unmarshal_child_some (elm : element) (s : shape) :
  unmarshal_child unmarshal elm = Ok (Some s) ->
  _element s = elm /\ skipped elm = false.
Proof.
  unfold unmarshal_child, skipped.
  destruct (_ || _ || _); [discriminate|].
  repeat match goal with
         | |- context [if ?b then _ else _] => destruct b
         end;
    try (intros [= <-]; now split); try discriminate.
  destruct (unmarshal elm); simpl; [|discriminate].
  intros [= <-]; now split.
Qed.

Lemma unmarshal_child_none (elm : element) :
  unmarshal_child unmarshal elm = Ok None -> skipped elm = true.
Proof.
  unfold unmarshal_child, skipped.
  destruct (_ || _ || _); [reflexivity|].
  repeat match goal with
         | |- context [if ?b then _ else _] => destruct b
         end; try discriminate.
  destruct (unmarshal elm); discriminate.
Qed.

(** The shapes found so far stay in front. *)
Lemma unmarshal_loop_acc (cs : list element) :
  forall acc,
    unmarshal_loop unmarshal cs acc =
    rbind (unmarshal_loop unmarshal cs []) (fun l => Ok (acc ++ l)).
Proof.
  induction cs as [|c cs IH]; intros acc; simpl.
  - now rewrite app_nil_r.
  - destruct (unmarshal_child unmarshal c) as [[s|]|e]; simpl.
    + rewrite (IH (acc ++ [s])), (IH [s]).
      destruct (unmarshal_loop unmarshal cs []); simpl; [|reflexivity].
      now rewrite <- app_assoc.
    + apply IH.
    + reflexivity.
Qed.

(** The loop returns one wrapper for each child that is a shape, in the
    order of the children. *)
Lemma unmarshal_loop_paired (cs : list element) :
  forall shapes, unmarshal_loop unmarshal cs [] = Ok shapes ->
  map _element shapes = filter (fun elm => negb (skipped elm)) cs.
Proof.
  induction cs as [|c cs IH]; simpl; intros shapes H.
  - now injection H as <-.
  - destruct (unmarshal_child unmarshal c) as [[s|]|e] eqn:E; simpl in H.
    + rewrite unmarshal_loop_acc in H.
      destruct (unmarshal_loop unmarshal cs []) as [l|]; simpl in H;
        [|discriminate].
      injection H as <-.
      apply unmarshal_child_some in E as [<- Hs]. rewrite Hs. simpl.
      f_equal. now apply IH.
    + apply unmarshal_child_none in E. rewrite E. simpl. now apply IH.
    + discriminate.
Qed.

Lemma unmarshal_paired (spTree : element) (shapes : list shape) :
  unmarshal spTree = Ok shapes ->
  map _element shapes =
  filter (fun elm => negb (skipped elm)) (iterchildren spTree).
Proof.
  destruct spTree as [t a cs]. simpl. apply unmarshal_loop_paired.
Qed.

Ltac eval_eqb :=
  repeat match goal with
         | |- context [String.eqb ?x ?y] =>
             let v := eval vm_compute in (String.eqb x y) in
             match v with
             | true => change (String.eqb x y) with true
             | false => change (String.eqb x y) with false
             end
         end.

Ltac eval_variant D :=
  match type of D with
  | context [lookup_variant ?t ?g] =>
      let v := eval vm_compute in (lookup_variant t g) in
      match v with
      | Skip => idtac | AutoShape => idtac | Picture => idtac
      | Group => idtac | GraphicFrame => idtac | Generic => idtac
      | Unsupported => idtac
      end;
      change (lookup_variant t g) with v in D
  end;
  cbv beta iota in D.

Ltac rest_of_loop IHcs acc :=
  destruct (IHcs acc) as [[-> ->]|[-> ?]]; [now left | now right].

(** Unmarshaling raises, and then the [ValueError] of the content part,
    just when there is a content part down the groups; otherwise it
    returns. *)
Lemma unmarshal_outcome (e : element) :
  (has_contentPart e = true /\
   unmarshal e = Raise (ValueError unsupported_msg)) \/
  (has_contentPart e = false /\ exists shapes, unmarshal e = Ok shapes).
Proof.
  induction e as [t a cs IH] using element_rect'.
  cbn [has_contentPart unmarshal].
  set (found := fun elm => String.eqb (tag elm) _CONTENTPART
                           || (String.eqb (tag elm) _GRPSP
                               && has_contentPart elm)).
  generalize (@nil shape).
  induction IH as [|c cs Hc _ IHcs]; intros acc.
  - right. split; [reflexivity|]. now exists acc.
  - cbn [existsb unmarshal_loop].
    pose proof (unmarshal_child_dispatched c) as D.
    unfold dispatched, variant_of_tag in D.
    unfold found at 1 3.
    destruct c as [tc ac cc]. cbn [tag] in *.
    set (r := unmarshal_child unmarshal (Element tc ac cc)) in *.
    tag_cases tc; try eval_variant D; eval_eqb; cbn [orb andb].
    + rewrite D. cbn [rbind]. rest_of_loop IHcs acc.
    + rewrite D. cbn [rbind]. rest_of_loop IHcs acc.
    + rewrite D. cbn [rbind]. rest_of_loop IHcs acc.
    + rewrite D. cbn [rbind]. rest_of_loop IHcs (acc ++ [_Shape (Element _SP ac cc)]).
    + rewrite D. cbn [rbind]. rest_of_loop IHcs (acc ++ [_Picture (Element _PIC ac cc)]).
    + destruct Hc as [[Hh Hu]|[Hh [shapes Hu]]]; rewrite Hu in D;
        rewrite D, Hh; cbn [rbind orb].
      * now left.
      * rest_of_loop IHcs
          (acc ++ [_ShapeCollection (Element _GRPSP ac cc) shapes]).
    + destruct (has_table _); rewrite D; cbn [rbind].
      * rest_of_loop IHcs (acc ++ [_Table (Element _GRAPHICFRAME ac cc)]).
      * rest_of_loop IHcs
          (acc ++ [_BaseShape (Element _GRAPHICFRAME ac cc)]).
    + rewrite D. cbn [rbind].
      rest_of_loop IHcs (acc ++ [_BaseShape (Element _CXNSP ac cc)]).
    + rewrite D. cbn [rbind orb]. now left.
    + cbn [dispatch_table lookup_variant] in D.
      rewrite !eqb_sym_false in D by assumption.
      rewrite D. cbn [rbind].
      rest_of_loop IHcs (acc ++ [_BaseShape (Element tc ac cc)]).
Qed.

End Unmarshaling.

(* ====================================================================== *)
(** * What growing preserves *)

Module Growth.

Lemma identified_attribs (elm : element) (id : Z) (nm : string) :
  identified_by elm id nm ->
  exists a, cNvPr_attribs elm = [a] /\ id_of_attribs a = Ok id /\
            name_of_attribs a = [nm].
Proof.
  intros [more H]. eexists. split; [exact H|]. split.
  - unfold id_of_attribs. cbn [lookup_attr].
    change (String.eqb "id" "id") with true. cbv iota.
    apply Text.int_fmt_d.
  - reflexivity.
Qed.

Lemma appended_ids (c : collection) (elm : element) (s : shape) (id : Z)
    (nm : string) :
  next_shape_id_of c = Ok id -> identified_by elm id nm ->
  ids_distinct (document c) -> ids_distinct (document (appended c elm s)).
Proof.
  intros Hid Helm (ids & Hids & Hnd).
  destruct (Ids.next_shape_id_fresh c ids Hids) as (i & Hi & _ & Hfresh).
  rewrite Hid in Hi. injection Hi as <-.
  destruct (identified_attribs _ _ _ Helm) as (a & Ha & Hia & _).
  destruct (Doc.ids_appended c elm s a id ids Ha Hia Hids)
    as (ids' & Hids' & Hperm).
  exists ids'. split; [exact Hids'|].
  eapply Permutation_NoDup; [exact Hperm|]. now constructor.
Qed.

Lemma grown_ids P (c c' : collection) :
  grown P c c' -> ids_distinct (document c) -> ids_distinct (document c').
Proof.
  induction 1; intros Hstart; [exact Hstart|].
  eapply appended_ids; eauto.
Qed.

(** With the new name the names are distinct just when they were and the
    name was not among them. *)
Lemma appended_names (c : collection) (elm : element) (s : shape) (id : Z)
    (nm : string) :
  identified_by elm id nm ->
  names_distinct (document (appended c elm s)) <->
  ~ In nm (names_of (document c)) /\ names_distinct (document c).
Proof.
  intros Helm.
  destruct (identified_attribs _ _ _ Helm) as (a & Ha & _ & Hna).
  pose proof (Doc.names_appended c elm s a Ha) as Hperm.
  rewrite Hna in Hperm. simpl in Hperm. unfold names_distinct. split.
  - intros H. apply (Permutation_NoDup (Permutation_sym Hperm)) in H.
    now inversion H.
  - intros [Hnin Hnd]. eapply Permutation_NoDup; [exact Hperm|].
    now constructor.
Qed.

Lemma grown_names (c c' : collection) :
  grown unused_name c c' ->
  names_distinct (document c) -> names_distinct (document c').
Proof.
  induction 1; intros Hstart; [exact Hstart|].
  eapply appended_names; eauto.
Qed.

Lemma iterchildren_append (e elm : element) :
  iterchildren (append e elm) = iterchildren e ++ [elm].
Proof. now destruct e. Qed.

Lemma appended_paired (c : collection) (elm : element) (s : shape) :
  unmarshal_child unmarshal elm = Ok (Some s) ->
  paired c -> paired (appended c elm s).
Proof.
  intros Hs Hp. apply Unmarshaling.unmarshal_child_some in Hs as [He Hk].
  unfold paired in *. cbn [appended __shapes __spTree].
  rewrite iterchildren_append, map_app, filter_app, Hp. simpl.
  now rewrite Hk, He.
Qed.

Lemma grown_paired P (c c' : collection) :
  grown P c c' -> paired c -> paired c'.
Proof.
  induction 1; intros Hstart; [exact Hstart|].
  apply appended_paired; auto.
Qed.

(** Growing only appends, as many children as shapes. *)
Lemma grown_extends P (c c' : collection) :
  grown P c c' ->
  exists news,
    __shapes c' = __shapes c ++ news /\
    iterchildren (__spTree c') =
      iterchildren (__spTree c) ++ map _element news.
Proof.
  induction 1 as [c|c c' elm s id nm _ (news & Hs & Hc) _ _ _ Hw].
  - exists []. simpl. now rewrite !app_nil_r.
  - exists (news ++ [s]). cbn [appended __shapes __spTree].
    rewrite iterchildren_append, Hs, Hc, map_app, <- !app_assoc.
    apply Unmarshaling.unmarshal_child_some in Hw as [Hw _].
    simpl. now rewrite Hw.
Qed.

End Growth.

(* ====================================================================== *)
(** * The id allocator returns the smallest free id *)

Example next_shape_id_gap : next_shape_id_of sample_gap = Ok 3%Z.
Proof. reflexivity. Qed.

Example next_shape_id_full : next_shape_id_of sample_full = Ok 4%Z.
Proof. reflexivity. Qed.

(** C3.  When the [cNvPr] elements of the document carry distinct positive
    ids, [__next_shape_id] returns, and what it returns is the smallest
    positive integer that is not one of these ids: it is positive, it is
    none of the ids, and every smaller positive integer is one of them.
    (With the ids 1, 2, 4 this is 3, and with 1, 2, 3 it is 4: the two
    examples above.) *)
Theorem next_shape_id_smallest_unused (c : collection) (ids : list Z) :
  shape_ids c = Ok ids ->
  NoDup ids ->
  Forall (fun i => 0 < i)%Z ids ->
  exists n, next_shape_id_of c = Ok n /\ (0 < n)%Z /\ ~ In n ids /\
            forall k, (0 < k < n)%Z -> In k ids.
Proof.
  intros Hids Hnd Hpos.
  unfold next_shape_id_of. rewrite Hids. cbn [rbind].
  set (sorted := sort (fun i => i) ids).
  assert (Hperm : Permutation sorted ids) by apply Sorting.sort_perm.
  assert (Hsorted : StronglySorted Z.le sorted) by apply Ids.sorted_ids.
  destruct (Ids.first_gap_fresh sorted Hsorted 1%Z) as [Hge Hnin].
  eexists. split; [reflexivity|]. repeat split.
  - lia.
  - intros Hin. apply Hnin. eapply Permutation_in; [|exact Hin].
    now symmetry.
  - intros k Hk. eapply Permutation_in; [exact Hperm|].
    apply (Ids.first_gap_least sorted Hsorted) with (n := 1%Z).
    + eapply Permutation_NoDup; [|exact Hnd]. now symmetry.
    + eapply Permutation_Forall; [symmetry; exact Hperm|].
      eapply Forall_impl; [|exact Hpos].
      intros i Hi. cbv beta in Hi. lia.
    + lia.
Qed.

Lemma next_shape_id_smallest_unused_witness :
  shape_ids sample_gap = Ok [1; 2; 4]%Z /\
  exists n, next_shape_id_of sample_gap = Ok n /\ (0 < n)%Z /\
            ~ In n [1; 2; 4]%Z /\
            forall k, (0 < k < n)%Z -> In k [1; 2; 4]%Z.
Proof.
  split; [reflexivity|].
  apply (next_shape_id_smallest_unused sample_gap [1; 2; 4]%Z).
  - reflexivity.
  - repeat constructor; simpl; lia.
  - repeat constructor.
Defined.

(* ====================================================================== *)
(** * Ids stay distinct *)

(** C1.  Take a document in which every [cNvPr] element has a number for
    its id and no two have the same.  After any sequence of calls of
    [add_picture], [add_shape], [add_table], [add_textbox] and
    [_clone_layout_placeholders], each on any collection of the document and
    whether the call returns or raises, this is still so: after each call no
    two shape-identifying elements of the whole document share an id. *)
Theorem ids_stay_distinct (K : imports) (root root' : element) :
  ids_distinct root -> doc_steps K root root' -> ids_distinct root'.
Proof.
  intros H0 Hsteps. induction Hsteps as [|root root' root'' _ IH Hstep].
  - exact H0.
  - destruct Hstep as [c k].
    eapply Growth.grown_ids; [apply Calls.exec_grown | exact (IH H0)].
Qed.

Lemma ids_stay_distinct_witness :
  ids_distinct (document sample_gap) /\
  ids_distinct
    (document
       (exec sample_imports (Clone_layout_placeholders sample_layout)
          (exec sample_imports (Add_textbox 0 0 10 10) sample_gap))).
Proof.
  assert (H0 : ids_distinct (document sample_gap)).
  { exists [1; 2; 4]%Z. split; [reflexivity|].
    repeat constructor; simpl; lia. }
  split; [exact H0|].
  apply (ids_stay_distinct sample_imports (document sample_gap)).
  - exact H0.
  - eapply Doc_more; [eapply Doc_more; [apply Doc_refl|] |].
    + apply (Doc_step sample_imports sample_gap (Add_textbox 0 0 10 10)).
    + apply (Doc_step sample_imports
               (exec sample_imports (Add_textbox 0 0 10 10) sample_gap)
               (Clone_layout_placeholders sample_layout)).
Defined.

(* ====================================================================== *)
(** * The placeholder name allocator *)

Example next_ph_name_vertical :
  next_ph_name_of sample_imports "body" 5 "vert" sample_gap =
  Ok "Vertical Text Placeholder 4".
Proof. reflexivity. Qed.

(** C10.  Whatever the names in the document, the basename and the number
    to start from, the collision loop of [__next_ph_name] ends: there is a
    number, not below the start, whose name is not taken; the loop returns
    within one round more than there are names, and the same name with any
    larger bound; so the method never runs into the bound of the model. *)
Theorem ph_name_loop_terminates (basename : string) (numpart : Z)
    (names : list string) :
  (exists m, (numpart <= m)%Z /\ ~ In (fmt_s_d basename m) names) /\
  (exists name, forall extra,
     ph_name_loop (S (List.length names) + extra) basename numpart names
     = Some name) /\
  (forall K ph_type id orient c,
     next_ph_name_of K ph_type id orient c <> Raise Unbounded).
Proof.
  repeat split.
  - destruct (Names.ph_name_loop_ends basename numpart names) as [nm H].
    apply Names.ph_name_loop_some in H as (m & Hm & -> & Hnin & _).
    now exists m.
  - destruct (Names.ph_name_loop_ends basename numpart names) as [nm H].
    exists nm. intros extra. now apply Names.ph_name_loop_more.
  - intros K ph_type id orient c. unfold next_ph_name_of.
    destruct (slide_ph_basenames K ph_type) as [b|]; [|discriminate].
    destruct (Names.ph_name_loop_ends
                (if String.eqb orient (PH_ORIENT_VERT K)
                 then ("Vertical " ++ b)%string else b)
                (id - 1) (xpath_cNvPr_name c)) as [nm ->].
    discriminate.
Qed.

Module TreeNames.

(** The names read off the [cNvPr] scan are the names found by walking the
    tree. *)
Lemma names_of_tree_names (e : element) : names_of e = tree_names e.
Proof.
  induction e as [t a cs IH] using Unmarshaling.element_rect'.
  unfold names_of. rewrite Doc.cNvPr_attribs_unfold, Doc.flat_map_app'.
  cbn [tree_names]. f_equal.
  - destruct (String.eqb t _CNVPR); [|reflexivity].
    simpl. now rewrite app_nil_r.
  - induction IH as [|c cs Hc _ IHcs]; simpl; [reflexivity|].
    rewrite Doc.flat_map_app', IHcs. f_equal. exact Hc.
Qed.

End TreeNames.

Example next_ph_name_collision :
  next_ph_name_of sample_imports "body" 2 "horz" sample_taken
  = Ok "Text Placeholder 3".
Proof. reflexivity. Qed.

(** C4.  For a placeholder type that has a basename in the table, a
    candidate id and an orientation, [__next_ph_name] returns the basename,
    with ["Vertical "] in front just when the orientation is the vertical
    one, followed by a blank and the smallest integer [n] with
    [id - 1 <= n] whose name is not the name of any shape-identifying
    element anywhere in the document the collection lives in. *)
Theorem next_ph_name_first_free (K : imports) (ph_type : string) (id : Z)
    (orient : string) (c : collection) (basename : string) :
  slide_ph_basenames K ph_type = Some basename ->
  let prefixed :=
    if String.eqb orient (PH_ORIENT_VERT K)
    then ("Vertical " ++ basename)%string else basename in
  exists n,
    next_ph_name_of K ph_type id orient c = Ok (fmt_s_d prefixed n) /\
    (id - 1 <= n)%Z /\
    ~ In (fmt_s_d prefixed n) (tree_names (document c)) /\
    forall k, (id - 1 <= k < n)%Z ->
              In (fmt_s_d prefixed k) (tree_names (document c)).
Proof.
  intros Hb prefixed.
  destruct (Names.next_ph_name_ok K ph_type id orient c basename Hb)
    as (nm & Hok & Hloop).
  fold prefixed in Hloop.
  apply Names.ph_name_loop_some in Hloop as (n & Hn & -> & Hnin & Hbelow).
  rewrite Doc.xpath_cNvPr_name_eq, TreeNames.names_of_tree_names
    in Hnin, Hbelow.
  exists n. repeat split; assumption.
Qed.

Lemma next_ph_name_first_free_witness :
  tree_names (document sample_taken)
  = [""; "Text Placeholder 1"; "Text Placeholder 2"] /\
  exists n,
    next_ph_name_of sample_imports "body" 2 "horz" sample_taken =
      Ok (fmt_s_d "Text Placeholder" n) /\
    (2 - 1 <= n)%Z /\
    ~ In (fmt_s_d "Text Placeholder" n) (tree_names (document sample_taken))
    /\
    forall k, (2 - 1 <= k < n)%Z ->
              In (fmt_s_d "Text Placeholder" k)
                 (tree_names (document sample_taken)).
Proof.
  split; [reflexivity|].
  apply (next_ph_name_first_free sample_imports "body" 2 "horz" sample_taken
           "Text Placeholder").
  reflexivity.
Defined.

(* ====================================================================== *)
(** * Names *)

Module Adds.

(** An add changes nothing, or appends one element whose name is composed
    of a basename and the new id less one. *)
Lemma add_cases (K : imports) (k : call) (c : collection) :
  is_add k = true ->
  exec K k c = c \/
  exists elm s id basename,
    exec K k c = appended c elm s /\
    next_shape_id_of c = Ok id /\
    identified_by elm id (fmt_s_d basename (id - 1)) /\
    unmarshal_child unmarshal elm = Ok (Some s).
Proof.
  destruct k as [f l t w h|a l t w h|r n l t w h|l t w h|sps];
    cbn [is_add exec]; intros Hadd; try discriminate.
  - rewrite Calls.add_picture_run.
    destruct (__slide c); [|now left].
    destruct (next_shape_id_of c) as [id|]; [|now left].
    right. do 2 eexists. exists id, "Picture".
    repeat split. apply Builders.identified_new_pic.
  - rewrite Calls.add_shape_run.
    destruct (_AutoShapeType K a) as [ast|]; [|now left].
    destruct (next_shape_id_of c) as [id|]; [|now left].
    right. do 2 eexists. exists id, (basename ast).
    repeat split. apply Builders.identified_new_autoshape_sp.
  - rewrite Calls.add_table_run.
    destruct (next_shape_id_of c) as [id|]; [|now left].
    right. do 2 eexists. exists id, "Table".
    repeat split. apply Builders.identified_new_table.
  - rewrite Calls.add_textbox_run.
    destruct (next_shape_id_of c) as [id|]; [|now left].
    right. do 2 eexists. exists id, "TextBox".
    repeat split. apply Builders.identified_new_textbox_sp.
Qed.

(** A call that is not an add leaves distinct names distinct. *)
Lemma clone_names (K : imports) (k : call) (c : collection) :
  is_add k = false ->
  names_distinct (document c) -> names_distinct (document (exec K k c)).
Proof.
  destruct k; try discriminate. intros _ Hnd. cbn [exec].
  eapply Growth.grown_names; [apply Calls.clone_loop_grown | exact Hnd].
Qed.

End Adds.

(** A text box added to a slide whose one shape has the id 3 and the name
    of a first text box gets the id 2 and that same name: ids and names
    were distinct before, and the names are not afterwards. *)
Lemma names_collide_after_add_textbox :
  ids_distinct (document sample_renamed) /\
  names_distinct (document sample_renamed) /\
  ~ names_distinct
      (document (exec sample_imports (Add_textbox 0 0 10 10)
                      sample_renamed)).
Proof.
  split; [|split].
  - exists [1; 3]%Z. split; [reflexivity|].
    repeat constructor; simpl; lia.
  - unfold names_distinct.
    change (names_of (document sample_renamed)) with [""; "TextBox 1"].
    repeat constructor; simpl; intuition discriminate.
  - unfold names_distinct.
    change (names_of (document (exec sample_imports (Add_textbox 0 0 10 10)
                                     sample_renamed)))
      with [""; "TextBox 1"; "TextBox 1"].
    intros H. inversion H as [|? ? _ H1]. inversion H1 as [|? ? Hn _].
    apply Hn. now left.
Qed.

(* ====================================================================== *)
(** * The sequence and the children *)

Module Pairing.

Lemma init_paired ctx spTree slide c :
  __init__ ctx spTree slide = Ok c -> paired c.
Proof.
  unfold __init__. destruct (unmarshal spTree) as [shapes|] eqn:E;
    simpl; [|discriminate].
  intros [= <-]. unfold paired. simpl.
  now apply Unmarshaling.unmarshal_paired.
Qed.

Lemma exec_all_paired (K : imports) (ks : list call) :
  forall c, paired c -> paired (exec_all K ks c).
Proof.
  unfold exec_all. induction ks as [|k ks IH]; simpl; intros c Hc.
  - exact Hc.
  - apply IH. eapply Growth.grown_paired; [apply Calls.exec_grown|exact Hc].
Qed.

Lemma add_picture_appends_one file l t w h :
  appends_one (add_picture file l t w h).
Proof.
  intros c. rewrite Calls.add_picture_run.
  destruct (__slide c); [|reflexivity].
  destruct (next_shape_id_of c); reflexivity.
Qed.

Lemma add_shape_appends_one K a l t w h :
  appends_one (add_shape K a l t w h).
Proof.
  intros c. rewrite Calls.add_shape_run.
  destruct (_AutoShapeType K a); [|reflexivity].
  destruct (next_shape_id_of c); reflexivity.
Qed.

Lemma add_table_appends_one r n l t w h :
  appends_one (add_table r n l t w h).
Proof.
  intros c. rewrite Calls.add_table_run.
  destruct (next_shape_id_of c); reflexivity.
Qed.

Lemma add_textbox_appends_one l t w h :
  appends_one (add_textbox l t w h).
Proof.
  intros c. rewrite Calls.add_textbox_run.
  destruct (next_shape_id_of c); reflexivity.
Qed.

Lemma clone_layout_placeholder_appends_one K ph :
  appends_one (__clone_layout_placeholder K ph).
Proof.
  intros c. rewrite Calls.clone_layout_placeholder_run.
  destruct (next_shape_id_of c); [|reflexivity].
  destruct (next_ph_name_of K _ _ _ c); [|reflexivity].
  destruct (idx ph); reflexivity.
Qed.

End Pairing.

(** C9.  Once a collection has been constructed, and after every call of an
    add or of [_clone_layout_placeholders] made on it since, whether it
    returned or raised, the elements of its shapes are, one for one and in
    the same order, the children of its [spTree] that are not skipped.
    Each add, and each clone of one layout placeholder, that returns a shape
    has appended the element of that shape to the tree and the shape to the
    sequence, once each; one that raises has changed neither; and a call of
    [_clone_layout_placeholders] appends as many children as shapes. *)
Theorem sequence_paired_with_children (K : imports) ctx spTree slide c
    (ks : list call) :
  __init__ ctx spTree slide = Ok c ->
  paired c /\
  paired (exec_all K ks c) /\
  (forall file l t w h, appends_one (add_picture file l t w h)) /\
  (forall a l t w h, appends_one (add_shape K a l t w h)) /\
  (forall r n l t w h, appends_one (add_table r n l t w h)) /\
  (forall l t w h, appends_one (add_textbox l t w h)) /\
  (forall ph, appends_one (__clone_layout_placeholder K ph)) /\
  (forall sps d, exists news,
     __shapes (exec K (Clone_layout_placeholders sps) d)
       = __shapes d ++ news /\
     iterchildren (__spTree (exec K (Clone_layout_placeholders sps) d))
       = iterchildren (__spTree d) ++ map _element news).
Proof.
  intros Hinit.
  pose proof (Pairing.init_paired _ _ _ _ Hinit) as Hc.
  split; [exact Hc|].
  split; [now apply Pairing.exec_all_paired|].
  split; [exact Pairing.add_picture_appends_one|].
  split; [exact (Pairing.add_shape_appends_one K)|].
  split; [exact Pairing.add_table_appends_one|].
  split; [exact Pairing.add_textbox_appends_one|].
  split; [exact (Pairing.clone_layout_placeholder_appends_one K)|].
  intros sps d. eapply Growth.grown_extends. apply Calls.exec_grown.
Qed.

Lemma sequence_paired_with_children_witness :
  __init__ (ctx sample_gap) (__spTree sample_gap) None = Ok sample_gap /\
  paired sample_gap /\
  paired (exec_all sample_imports
            [Add_textbox 0 0 10 10;
             Clone_layout_placeholders sample_layout;
             Add_table 2 3 0 0 300 200]
            sample_gap).
Proof.
  assert (H : __init__ (ctx sample_gap) (__spTree sample_gap) None
              = Ok sample_gap) by reflexivity.
  split; [exact H|].
  destruct (sequence_paired_with_children sample_imports
              (ctx sample_gap) (__spTree sample_gap) None sample_gap
              [Add_textbox 0 0 10 10;
               Clone_layout_placeholders sample_layout;
               Add_table 2 3 0 0 300 200] H) as (H1 & H2 & _).
  split; [exact H1 | exact H2].
Defined.

(* ====================================================================== *)
(** * Cloning the placeholders of a layout *)

Module Cloning.
Section WithImports.
Context (K : imports).

(** The test of the loop is the one on the three latent types. *)
Lemma cloned_to_clone (sp : shape) : cloned K sp = to_clone K sp.
Proof.
  unfold cloned, to_clone, latent_ph_types. cbn [existsb].
  destruct (is_placeholder sp); cbn [andb]; [|reflexivity].
  destruct (String.eqb _ (PH_TYPE_DT K)),
           (String.eqb _ (PH_TYPE_SLDNUM K)),
           (String.eqb _ (PH_TYPE_FTR K)); reflexivity.
Qed.

Lemma filter_cloned (layout : list shape) :
  filter (cloned K) layout = filter (to_clone K) layout.
Proof.
  apply filter_ext. exact cloned_to_clone.
Qed.

(** The loop returns just when the placeholders to clone can be cloned one
    after the other, and then with the collection this leads to. *)
Lemma clone_loop_clones (layout : list shape) :
  forall c c',
    clone_loop K layout c = (Ok tt, c') <->
    clones K c (filter (cloned K) layout) c'.
Proof.
  induction layout as [|sp rest IH]; intros c c'.
  - simpl. unfold ret. split.
    + intros [= <-]. constructor.
    + intros H. inversion H. reflexivity.
  - rewrite Calls.clone_loop_cons. cbn [filter].
    destruct (cloned K sp); [|apply IH].
    rewrite Calls.clone_layout_placeholder_run. split.
    + destruct (next_shape_id_of c) as [id|] eqn:Eid; [|discriminate].
      destruct (next_ph_name_of K _ id _ c) as [nm|] eqn:Enm;
        [|discriminate].
      destruct (idx (_Placeholder sp)) as [i|] eqn:Ei; [|discriminate].
      cbv zeta. intros H. apply IH in H.
      econstructor; eauto.
    + intros H. inversion H as [|? ? ? ? id nm i Eid Enm Ei Hrest]; subst.
      rewrite Eid, Enm, Ei. cbv zeta. now apply IH.
Qed.

(** The element built for a clone reads back as the layout placeholder. *)
Lemma copy_of_new (layout_sp : shape) (id : Z) (nm : string) (i : Z) :
  idx (_Placeholder layout_sp) = Ok i ->
  copy_of layout_sp
    (new_placeholder_sp id nm (type (_Placeholder layout_sp))
       (orient (_Placeholder layout_sp)) (sz (_Placeholder layout_sp)) i).
Proof.
  intros Hi. unfold copy_of.
  repeat (split; [reflexivity|]).
  exists i. split; [exact Hi|].
  apply Text.int_fmt_d.
Qed.

Lemma clones_copies (phs : list shape) :
  forall c c', clones K c phs c' ->
  exists sps,
    __shapes c' = __shapes c ++ map _Shape sps /\
    iterchildren (__spTree c') = iterchildren (__spTree c) ++ sps /\
    Forall2 copy_of phs sps.
Proof.
  induction phs as [|ph phs IH]; intros c c' H.
  - inversion H; subst. exists []. simpl. now rewrite !app_nil_r.
  - inversion H as [|? ? ? ? id nm i Eid Enm Ei Hrest]; subst.
    apply IH in Hrest as (sps & Hs & Hc & Hf).
    cbn [appended __shapes __spTree] in Hs, Hc.
    rewrite Growth.iterchildren_append in Hc.
    eexists (_ :: sps). rewrite Hs, Hc, <- !app_assoc. simpl.
    repeat split. constructor; [|exact Hf].
    now apply copy_of_new.
Qed.

End WithImports.
End Cloning.

(** C5.  [_clone_layout_placeholders] clones exactly the shapes of the
    layout that are placeholders of another type than date, slide number
    and footer, in the order of the layout: it returns just when these can
    be cloned one after the other, each with the id [__next_shape_id] and
    the name [__next_ph_name] give at that moment; the collection then ends
    with one new placeholder shape for each of them, in that order, that has
    the type, the orientation, the size and the idx of its layout
    placeholder; the ids and the names of the document stay distinct if they
    were; a latent placeholder is none of those cloned. *)
Theorem clone_layout_placeholders_copies (K : imports) (layout : list shape)
    (c c' : collection) :
  (_clone_layout_placeholders K layout c = (Ok tt, c') <->
   clones K c (filter (to_clone K) layout) c') /\
  (clones K c (filter (to_clone K) layout) c' ->
   (exists sps,
      __shapes c' = __shapes c ++ map _Shape sps /\
      iterchildren (__spTree c') = iterchildren (__spTree c) ++ sps /\
      Forall2 copy_of (filter (to_clone K) layout) sps) /\
   (ids_distinct (document c) -> ids_distinct (document c')) /\
   (names_distinct (document c) -> names_distinct (document c'))) /\
  (forall sp, In sp (filter (to_clone K) layout) ->
     In sp layout /\ is_placeholder sp = true /\
     type (_Placeholder sp) <> PH_TYPE_DT K /\
     type (_Placeholder sp) <> PH_TYPE_SLDNUM K /\
     type (_Placeholder sp) <> PH_TYPE_FTR K).
Proof.
  rewrite <- Cloning.filter_cloned.
  split; [apply Cloning.clone_loop_clones|]. split.
  - intros H. split; [now apply (Cloning.clones_copies K)|].
    apply Cloning.clone_loop_clones in H.
    assert (Hc' : c' = snd (clone_loop K layout c)) by now rewrite H.
    subst c'. split; intros H0.
    + eapply Growth.grown_ids; [apply Calls.clone_loop_grown|exact H0].
    + eapply Growth.grown_names; [apply Calls.clone_loop_grown|exact H0].
  - intros sp Hin. apply filter_In in Hin as [Hin Hc].
    rewrite Cloning.cloned_to_clone in Hc. unfold to_clone in Hc.
    apply andb_prop in Hc as [Hc Hf]. apply andb_prop in Hc as [Hc Hs].
    apply andb_prop in Hc as [Hp Hd].
    apply negb_true_iff, String.eqb_neq in Hf, Hs, Hd.
    repeat split; assumption.
Qed.

Example clone_skips_latent :
  map name (__shapes sample_cloned) =
  [Some "TextBox 1"; Some "TextBox 3"; Some "Title 2";
   Some "Text Placeholder 4"; Some "Table Placeholder 5";
   Some "Vertical Text Placeholder 6"] /\
  mapM id (__shapes sample_cloned) = Ok [2; 4; 3; 5; 6; 7]%Z.
Proof. split; reflexivity. Qed.

Lemma clone_layout_placeholders_copies_witness :
  _clone_layout_placeholders sample_imports sample_layout sample_gap
    = (Ok tt, sample_cloned) /\
  exists sps,
    __shapes sample_cloned = __shapes sample_gap ++ map _Shape sps /\
    iterchildren (__spTree sample_cloned)
      = iterchildren (__spTree sample_gap) ++ sps /\
    Forall2 copy_of (filter (to_clone sample_imports) sample_layout) sps.
Proof.
  destruct (clone_layout_placeholders_copies sample_imports sample_layout
              sample_gap sample_cloned) as (Hiff & Hcl & _).
  assert (Hrun : _clone_layout_placeholders sample_imports sample_layout
                   sample_gap = (Ok tt, sample_cloned)) by reflexivity.
  split; [exact Hrun|].
  exact (proj1 (Hcl (proj1 Hiff Hrun))).
Defined.

(* ====================================================================== *)
(** * The dispatch on the tag *)

Module Dispatch.

(** The shapes of a collection are the wrappers of the children that are
    not skipped, in the order of the children. *)
Lemma unmarshal_loop_wrapped (cs : list element) :
  forall shapes, unmarshal_loop unmarshal cs [] = Ok shapes ->
  Forall2 (fun elm s => unmarshal_child unmarshal elm = Ok (Some s))
          (filter (fun elm => negb (skipped elm)) cs) shapes.
Proof.
  induction cs as [|c cs IH]; simpl; intros shapes H.
  - injection H as <-. constructor.
  - destruct (unmarshal_child unmarshal c) as [[s|]|e] eqn:E; simpl in H.
    + rewrite Unmarshaling.unmarshal_loop_acc in H.
      destruct (unmarshal_loop unmarshal cs []) as [l|]; simpl in H;
        [|discriminate].
      injection H as <-.
      destruct (Unmarshaling.unmarshal_child_some _ _ E) as [_ Hs].
      rewrite Hs. simpl. constructor; [exact E | now apply IH].
    + apply Unmarshaling.unmarshal_child_none in E. rewrite E. simpl.
      now apply IH.
    + discriminate.
Qed.

Lemma by_tag (elm : element) (tg : string) (v : variant) :
  tag elm = tg -> variant_of_tag tg = v ->
  match v with
  | Skip => unmarshal_child unmarshal elm = Ok None
  | AutoShape => unmarshal_child unmarshal elm = Ok (Some (_Shape elm))
  | Picture => unmarshal_child unmarshal elm = Ok (Some (_Picture elm))
  | Group =>
      forall shapes, unmarshal elm = Ok shapes ->
        unmarshal_child unmarshal elm
        = Ok (Some (_ShapeCollection elm shapes))
  | GraphicFrame =>
      unmarshal_child unmarshal elm
      = Ok (Some (if has_table elm then _Table elm else _BaseShape elm))
  | Generic => unmarshal_child unmarshal elm = Ok (Some (_BaseShape elm))
  | Unsupported =>
      unmarshal_child unmarshal elm = Raise (ValueError unsupported_msg)
  end.
Proof.
  intros Ht Hv.
  pose proof (Unmarshaling.unmarshal_child_dispatched elm) as D.
  unfold dispatched in D. rewrite Ht, Hv in D.
  destruct v; try exact D.
  - intros shapes Hs. now rewrite Hs in D.
  - now destruct (has_table elm).
Qed.

End Dispatch.

(** C6.  Every child of the [spTree] is dealt with by its tag alone (and,
    for a graphic frame, by whether it holds a table): [grpSpPr],
    [nvGrpSpPr] and [extLst] are skipped and give no shape; [sp] gives a
    [_Shape]; [pic] a [_Picture]; [grpSp] a nested [_ShapeCollection] with
    the shapes unmarshaled from it; [graphicFrame] a [_Table] when it has a
    table and a [_BaseShape] otherwise; [cxnSp] a [_BaseShape]; and any tag
    other than these and [contentPart] a [_BaseShape] as well, not an
    exception.  This is the table of the design document, and the shapes of
    the collection are the wrappers so chosen, for the children not skipped
    and in their order. *)
Theorem unmarshal_dispatch (spTree : element) :
  (forall elm,
     (tag elm = _GRPSPPR \/ tag elm = _NVGRPSPPR \/ tag elm = _EXTLST ->
      unmarshal_child unmarshal elm = Ok None) /\
     (tag elm = _SP ->
      unmarshal_child unmarshal elm = Ok (Some (_Shape elm))) /\
     (tag elm = _PIC ->
      unmarshal_child unmarshal elm = Ok (Some (_Picture elm))) /\
     (tag elm = _GRPSP ->
      forall shapes, unmarshal elm = Ok shapes ->
        unmarshal_child unmarshal elm
        = Ok (Some (_ShapeCollection elm shapes))) /\
     (tag elm = _GRAPHICFRAME ->
      unmarshal_child unmarshal elm
      = Ok (Some (if has_table elm then _Table elm else _BaseShape elm))) /\
     (tag elm = _CXNSP ->
      unmarshal_child unmarshal elm = Ok (Some (_BaseShape elm))) /\
     (~ In (tag elm)
           [_GRPSPPR; _NVGRPSPPR; _EXTLST; _SP; _PIC; _GRPSP;
            _GRAPHICFRAME; _CXNSP; _CONTENTPART] ->
      unmarshal_child unmarshal elm = Ok (Some (_BaseShape elm))) /\
     dispatched elm (unmarshal_child unmarshal elm)) /\
  (forall shapes, unmarshal spTree = Ok shapes ->
     Forall2 (fun elm s => unmarshal_child unmarshal elm = Ok (Some s))
             (filter (fun elm => negb (skipped elm)) (iterchildren spTree))
             shapes).
Proof.
  split.
  - intros elm.
    split; [intros [H|[H|H]];
            exact (Dispatch.by_tag elm _ Skip H eq_refl)|].
    split; [intros H; exact (Dispatch.by_tag elm _ AutoShape H eq_refl)|].
    split; [intros H; exact (Dispatch.by_tag elm _ Picture H eq_refl)|].
    split; [intros H; exact (Dispatch.by_tag elm _ Group H eq_refl)|].
    split; [intros H;
            exact (Dispatch.by_tag elm _ GraphicFrame H eq_refl)|].
    split; [intros H; exact (Dispatch.by_tag elm _ Generic H eq_refl)|].
    split; [|apply Unmarshaling.unmarshal_child_dispatched].
    intros Hnot.
    apply (Dispatch.by_tag elm (tag elm) Generic eq_refl).
    unfold variant_of_tag. cbn [dispatch_table lookup_variant].
    cbn [In] in Hnot.
    repeat match goal with
           | |- context [String.eqb ?t (tag elm)] =>
               destruct (String.eqb_spec t (tag elm)) as [E|_];
               [exfalso; apply Hnot; rewrite <- E; tauto|]
           end.
    reflexivity.
  - intros shapes. destruct spTree as [t a cs].
    apply Dispatch.unmarshal_loop_wrapped.
Qed.

Lemma unmarshal_dispatch_witness :
  unmarshal (__spTree sample_gap) = Ok (__shapes sample_gap) /\
  Forall2 (fun elm s => unmarshal_child unmarshal elm = Ok (Some s))
          (filter (fun elm => negb (skipped elm))
                  (iterchildren (__spTree sample_gap)))
          (__shapes sample_gap).
Proof.
  assert (H : unmarshal (__spTree sample_gap) = Ok (__shapes sample_gap))
    by reflexivity.
  split; [exact H|].
  exact (proj2 (unmarshal_dispatch (__spTree sample_gap))
               (__shapes sample_gap) H).
Defined.

(* ====================================================================== *)
(** * The unsupported content part *)

(** C7, as the code has it.  Constructing a collection raises just when a
    [contentPart] element is among the children of the tree or, through any
    depth of [grpSp] children, among the children of a nested group: it then
    raises the [ValueError] of the content part and no collection comes
    back.  In every other case the constructor returns the collection over
    the tree; no other tag makes it raise. *)
Theorem init_raises_on_contentPart (ctx : list frame) (spTree : element)
    (slide : option slide) :
  (has_contentPart spTree = true /\
   __init__ ctx spTree slide = Raise (ValueError unsupported_msg)) \/
  (has_contentPart spTree = false /\
   exists shapes,
     __init__ ctx spTree slide =
     Ok {| ctx := ctx; __spTree := spTree; __slide := slide;
           __shapes := shapes |}).
Proof.
  unfold __init__.
  destruct (Unmarshaling.unmarshal_outcome spTree)
    as [[Hh ->]|[Hh [shapes ->]]].
  - left. now split.
  - right. split; [exact Hh|]. now exists shapes.
Qed.

(** A tree none of whose children is a content part, but with a group
    among them that holds one: the constructor raises. *)
Lemma init_raises_without_contentPart_child :
  existsb (fun elm => String.eqb (tag elm) _CONTENTPART)
          (iterchildren sample_nested_contentPart) = false /\
  __init__ [] sample_nested_contentPart None
  = Raise (ValueError unsupported_msg).
Proof. split; reflexivity. Qed.

(* ====================================================================== *)
(** * [placeholders] *)

Module Placeholders.

Lemma keyed_spec (l : list placeholder) :
  forall kl, mapM keyed l = Ok kl ->
  map snd kl = l /\ Forall (fun kp => idx (snd kp) = Ok (fst kp)) kl.
Proof.
  induction l as [|ph l IH]; simpl; intros kl H.
  - injection H as <-. split; constructor.
  - unfold keyed at 1 in H.
    destruct (idx ph) as [k|] eqn:Ek; simpl in H; [|discriminate].
    destruct (mapM keyed l) as [kl'|]; simpl in H; [|discriminate].
    injection H as <-. destruct (IH kl' eq_refl) as [Hm Hf].
    split; [simpl; now rewrite Hm | now constructor].
Qed.

Lemma keyed_total (l : list placeholder) :
  Forall (fun ph => exists i, idx ph = Ok i) l ->
  exists kl, mapM keyed l = Ok kl.
Proof.
  intros H. apply Results.mapM_total.
  eapply Forall_impl; [|exact H].
  intros ph [i Hi]. exists (i, ph). unfold keyed. now rewrite Hi.
Qed.

Lemma sorted_by_idx (kl : list (Z * placeholder)) :
  Forall (fun kp => idx (snd kp) = Ok (fst kp)) kl ->
  StronglySorted (key_le fst) kl ->
  StronglySorted idx_le (map snd kl).
Proof.
  intros Hk Hs. induction Hs as [|kp kl Hs IH Hle]; simpl.
  - constructor.
  - inversion Hk as [|? ? Hkp Hkl]; subst.
    constructor; [now apply IH|].
    rewrite Forall_map. rewrite Forall_forall in *.
    intros kq Hq. exists (fst kp), (fst kq).
    repeat split; [exact Hkp | now apply Hkl | now apply Hle].
Qed.

Lemma filter_by_idx (k : Z) (kl : list (Z * placeholder)) :
  Forall (fun kp => idx (snd kp) = Ok (fst kp)) kl ->
  filter (has_idx k) (map snd kl) =
  map snd (filter (fun kp => (fst kp =? k)%Z) kl).
Proof.
  induction 1 as [|kp kl Hkp _ IH]; simpl; [reflexivity|].
  unfold has_idx at 1. rewrite Hkp, IH.
  now destruct (fst kp =? k)%Z.
Qed.

End Placeholders.

(** C8.  [placeholders] returns whenever the idx of every placeholder of
    the collection can be read, and what it returns is: the members of the
    collection that are placeholders, each once; in ascending order of
    idx; and, among those of one idx, in the order they have in the
    collection. *)
Theorem placeholders_sorted_stable (c : collection) :
  (Forall (fun ph => exists i, idx ph = Ok i)
          (map _Placeholder (filter is_placeholder (__shapes c))) ->
   exists phs, placeholders c = Ok phs) /\
  (forall phs, placeholders c = Ok phs ->
     Permutation phs
                 (map _Placeholder (filter is_placeholder (__shapes c))) /\
     StronglySorted idx_le phs /\
     forall k, filter (has_idx k) phs =
               filter (has_idx k)
                 (map _Placeholder (filter is_placeholder (__shapes c)))).
Proof.
  unfold placeholders.
  set (members := map _Placeholder (filter is_placeholder (__shapes c))).
  split.
  - intros H. destruct (Placeholders.keyed_total members H) as [kl ->].
    simpl. eauto.
  - intros phs H.
    destruct (mapM keyed members) as [kl|] eqn:E; simpl in H;
      [|discriminate].
    injection H as <-.
    destruct (Placeholders.keyed_spec members kl E) as [Hm Hk].
    assert (Hperm : Permutation (sort fst kl) kl)
      by apply Sorting.sort_perm.
    assert (Hk' : Forall (fun kp => idx (snd kp) = Ok (fst kp))
                         (sort fst kl)).
    { eapply Permutation_Forall; [symmetry; exact Hperm | exact Hk]. }
    split; [|split].
    + rewrite <- Hm. now apply Permutation_map.
    + apply Placeholders.sorted_by_idx; [exact Hk'|].
      apply Sorting.sort_sorted.
    + intros k. rewrite <- Hm.
      rewrite !Placeholders.filter_by_idx by assumption.
      now rewrite (Sorting.sort_stable fst k kl).
Qed.

Example placeholders_in_idx_order :
  mapM idx sample_placeholders = Ok [1; 2; 3; 13]%Z /\
  mapM idx (map _Placeholder
              (filter is_placeholder (__shapes sample_cloned)))
  = Ok [3; 1; 2; 13]%Z.
Proof. split; reflexivity. Qed.

Lemma placeholders_sorted_stable_witness :
  placeholders sample_cloned = Ok sample_placeholders /\
  Permutation sample_placeholders
    (map _Placeholder (filter is_placeholder (__shapes sample_cloned))) /\
  StronglySorted idx_le sample_placeholders.
Proof.
  assert (H : placeholders sample_cloned = Ok sample_placeholders)
    by reflexivity.
  split; [exact H|].
  destruct (proj2 (placeholders_sorted_stable sample_cloned)
                  sample_placeholders H) as (H1 & H2 & _).
  split; [exact H1 | exact H2].
Defined.

(* ====================================================================== *)
(** * More on the id allocator *)

Module MoreIds.

(** The loop adds at most one for each id it passes. *)
Lemma first_gap_bounds (l : list Z) :
  forall n, (n <= first_gap l n <= n + Z.of_nat (List.length l))%Z.
Proof.
  induction l as [|i l IH]; intros n; cbn [first_gap List.length].
  - lia.
  - destruct (i >? n)%Z; [lia|]. specialize (IH (n + 1)%Z). lia.
Qed.

(** Two sorted lists with the same members are the same list. *)
Lemma sorted_perm_eq (l1 : list Z) :
  forall l2, StronglySorted Z.le l1 -> StronglySorted Z.le l2 ->
             Permutation l1 l2 -> l1 = l2.
Proof.
  induction l1 as [|a l1 IH]; intros l2 H1 H2 Hp.
  - apply Permutation_nil in Hp. now subst.
  - destruct l2 as [|b l2].
    + symmetry in Hp. now apply Permutation_nil in Hp.
    + inversion H1 as [|? ? Hs1 Ha]; subst.
      inversion H2 as [|? ? Hs2 Hb]; subst.
      assert (a = b).
      { assert (Hina : In a (b :: l2))
          by (eapply Permutation_in; [exact Hp | now left]).
        assert (Hinb : In b (a :: l1))
          by (eapply Permutation_in; [symmetry; exact Hp | now left]).
        rewrite Forall_forall in Ha, Hb.
        destruct Hina as [->|Hina]; [reflexivity|].
        destruct Hinb as [->|Hinb]; [reflexivity|].
        specialize (Ha _ Hinb). specialize (Hb _ Hina). lia. }
      subst b. f_equal. apply IH; try assumption.
      now apply Permutation_cons_inv in Hp.
Qed.

(** Once the result of the loop has joined the ids, the loop goes past
    it. *)
Lemma first_gap_after (l : list Z) :
  forall n,
    (first_gap l n
     < first_gap (insert_front (fun i => i) (first_gap l n) l) n)%Z.
Proof.
  induction l as [|i l IH]; intros n; cbn [first_gap insert_front].
  - destruct (Z.gtb_spec n n); [lia|].
    cbn [first_gap]. lia.
  - destruct (Z.gtb_spec i n) as [Hgt|Hle].
    + destruct (Z.ltb_spec i n); [lia|]. cbn [first_gap].
      destruct (Z.gtb_spec n n); [lia|].
      pose proof (first_gap_bounds (i :: l) (n + 1)%Z) as Hb.
      cbn [first_gap] in Hb. lia.
    + pose proof (first_gap_bounds l (n + 1)%Z) as Hb.
      destruct (Z.ltb_spec i (first_gap l (n + 1))); [|lia].
      cbn [first_gap]. destruct (Z.gtb_spec i n); [lia|]. apply IH.
Qed.

Lemma sort_cons_perm (g : Z) (ids ids' : list Z) :
  Permutation (g :: ids) ids' ->
  sort (fun i => i) ids'
  = insert_front (fun i => i) g (sort (fun i => i) ids).
Proof.
  intros Hp. apply sorted_perm_eq.
  - apply Ids.sorted_ids.
  - apply (Sorting.insert_front_sorted (fun i => i)), Ids.sorted_ids.
  - rewrite Sorting.sort_perm, Sorting.insert_front_perm, <- Hp.
    constructor. symmetry. apply Sorting.sort_perm.
Qed.

(** After an element with the allocated id has been appended, the allocator
    gives a larger id. *)
Lemma next_shape_id_after (c : collection) (elm : element) (s : shape)
    (i : Z) (nm : string) :
  next_shape_id_of c = Ok i -> identified_by elm i nm ->
  exists j, next_shape_id_of (appended c elm s) = Ok j /\ (i < j)%Z.
Proof.
  intros Hi Helm.
  destruct (Ids.next_shape_id_inv c i Hi) as (ids & Hids & ->).
  destruct (Growth.identified_attribs _ _ _ Helm) as (a & Ha & Hia & _).
  destruct (Doc.ids_appended c elm s a _ ids Ha Hia Hids)
    as (ids' & Hids' & Hperm).
  unfold next_shape_id_of. rewrite Doc.shape_ids_eq, Hids'. cbn [rbind].
  eexists. split; [reflexivity|].
  rewrite (sort_cons_perm _ ids ids' Hperm). apply first_gap_after.
Qed.

(** While a collection grows, the allocator never falls back. *)
Lemma grown_next_shape_id P (c c' : collection) (i j : Z) :
  grown P c c' ->
  next_shape_id_of c = Ok i -> next_shape_id_of c' = Ok j -> (i <= j)%Z.
Proof.
  intros H. revert j.
  induction H as [c|c c' elm s g nm _ IH Hg Helm _ _]; intros j Hi Hj.
  - rewrite Hi in Hj. injection Hj as <-. lia.
  - destruct (next_shape_id_after c' elm s g nm Hg Helm) as (j' & Hj' & Hlt).
    rewrite Hj in Hj'. injection Hj' as <-.
    specialize (IH g Hi Hg). lia.
Qed.

End MoreIds.

(* ====================================================================== *)
(** * What an add returns *)

Module Returned.
Section WithImports.
Context (K : imports).

Lemma id_read (i : Z) (more : list (string * string)) (nm : string)
    (s : shape) :
  shape_cNvPr s = Some (cNvPr i nm more) -> id s = Ok i /\ name s = Some nm.
Proof.
  intros H. unfold id, name. rewrite H. split.
  - change (get (cNvPr i nm more) "id") with (Some (fmt_d i)).
    apply Text.int_fmt_d.
  - reflexivity.
Qed.

(** The shape an add hands back: it wraps the element that was appended,
    reads back with the id the allocator gave and with the composed name,
    and is no placeholder. *)
Lemma returned_add (k : call) (c : collection) (s : shape) :
  returned K k c = Ok (Some s) ->
  is_add k = true /\
  exists i b elm,
    next_shape_id_of c = Ok i /\
    call_basename K k = Some b /\
    exec K k c = appended c elm s /\
    identified_by elm i (fmt_s_d b (i - 1)) /\
    unmarshal_child unmarshal elm = Ok (Some s) /\
    id s = Ok i /\
    name s = Some (fmt_s_d b (i - 1)) /\
    is_placeholder s = false.
Proof.
  destruct k as [f l t w h|a l t w h|r n l t w h|l t w h|sps];
    cbn [returned exec is_add call_basename].
  - rewrite Calls.add_picture_run.
    destruct (__slide c); [|discriminate].
    destruct (next_shape_id_of c) as [i|]; [|discriminate].
    cbn. intros [= <-]. split; [reflexivity|].
    exists i, "Picture". eexists. repeat split.
    + apply Builders.identified_new_pic.
    + eapply id_read. reflexivity.
  - rewrite Calls.add_shape_run.
    destruct (_AutoShapeType K a) as [ast|]; [|discriminate].
    destruct (next_shape_id_of c) as [i|]; [|discriminate].
    cbn. intros [= <-]. split; [reflexivity|].
    exists i, (basename ast). eexists. repeat split.
    + apply Builders.identified_new_autoshape_sp.
    + eapply id_read. reflexivity.
  - rewrite Calls.add_table_run.
    destruct (next_shape_id_of c) as [i|]; [|discriminate].
    cbn. intros [= <-]. split; [reflexivity|].
    exists i, "Table". eexists. repeat split.
    + apply Builders.identified_new_table.
    + eapply id_read. reflexivity.
  - rewrite Calls.add_textbox_run.
    destruct (next_shape_id_of c) as [i|]; [|discriminate].
    cbn. intros [= <-]. split; [reflexivity|].
    exists i, "TextBox". eexists. repeat split.
    + apply Builders.identified_new_textbox_sp.
    + eapply id_read. reflexivity.
  - destruct (fst (_clone_layout_placeholders K sps c)); discriminate.
Qed.

Lemma exec_all_grown (ks : list call) :
  forall c, grown (fun _ _ _ => True) c (exec_all K ks c).
Proof.
  unfold exec_all. induction ks as [|k ks IH]; intros c; cbn [fold_left].
  - constructor.
  - eapply Calls.grown_trans; [apply Calls.exec_grown | apply IH].
Qed.

End WithImports.
End Returned.

(* ====================================================================== *)
(** * Further properties of the id allocator *)

(** X1.  Whatever numbers the [cNvPr] elements of the document carry as
    ids (repeated ones and ones below 1 included), [__next_shape_id] returns
    a number from 1 up to one more than there are such elements, and that
    number is not an id of the document; it raises just what reading the
    ids raises. *)
Theorem next_shape_id_fresh_bounded (c : collection) :
  (forall ids, shape_ids c = Ok ids ->
     exists n, next_shape_id_of c = Ok n /\
               (1 <= n <= Z.of_nat (List.length ids) + 1)%Z /\
               ~ In n ids) /\
  (forall e, shape_ids c = Raise e -> next_shape_id_of c = Raise e).
Proof.
  split.
  - intros ids Hids. unfold next_shape_id_of. rewrite Hids. cbn [rbind].
    eexists. split; [reflexivity|].
    pose proof (MoreIds.first_gap_bounds (sort (fun i => i) ids) 1%Z) as Hb.
    rewrite (Permutation_length (Sorting.sort_perm (fun i => i) ids)) in Hb.
    split; [lia|].
    destruct (Ids.first_gap_fresh _ (Ids.sorted_ids ids) 1%Z) as [_ Hnin].
    intros Hin. apply Hnin. eapply Permutation_in; [|exact Hin].
    symmetry. apply Sorting.sort_perm.
  - intros e He. unfold next_shape_id_of. now rewrite He.
Qed.

Lemma next_shape_id_fresh_bounded_witness :
  shape_ids sample_renamed = Ok [1; 3]%Z /\
  exists n, next_shape_id_of sample_renamed = Ok n /\
            (1 <= n <= Z.of_nat (List.length [1; 3]%Z) + 1)%Z /\
            ~ In n [1; 3]%Z.
Proof.
  split; [reflexivity|].
  apply (proj1 (next_shape_id_fresh_bounded sample_renamed)).
  reflexivity.
Defined.

(** X2.  The ids handed out grow: when an add has returned a shape, and
    later, after any calls on the collection in between, another add returns
    a shape, the id of the later shape is larger than that of the earlier
    one; and when the two adds use the same basename, the two shapes have
    different names. *)
Theorem added_ids_increase (K : imports) (k1 k2 : call) (ks : list call)
    (c : collection) (s1 s2 : shape) :
  returned K k1 c = Ok (Some s1) ->
  returned K k2 (exec_all K ks (exec K k1 c)) = Ok (Some s2) ->
  (exists i j, id s1 = Ok i /\ id s2 = Ok j /\ (i < j)%Z) /\
  (call_basename K k1 = call_basename K k2 -> name s1 <> name s2).
Proof.
  intros H1 H2.
  apply Returned.returned_add in H1
    as (_ & i & b1 & e1 & Hi & Hb1 & Hx1 & Hid1 & _ & Hs1 & Hn1 & _).
  apply Returned.returned_add in H2
    as (_ & j & b2 & e2 & Hj & Hb2 & _ & _ & _ & Hs2 & Hn2 & _).
  rewrite Hx1 in Hj.
  destruct (MoreIds.next_shape_id_after c e1 s1 i _ Hi Hid1)
    as (j1 & Hj1 & Hlt).
  pose proof (MoreIds.grown_next_shape_id _ _ _ j1 j
                (Returned.exec_all_grown K ks (appended c e1 s1)) Hj1 Hj)
    as Hle.
  split.
  - exists i, j. repeat split; [assumption | assumption | lia].
  - intros Hb. rewrite Hb1, Hb2 in Hb. injection Hb as ->.
    rewrite Hn1, Hn2. intros [= E].
    apply Text.fmt_s_d_inj in E. lia.
Qed.

Lemma added_ids_increase_witness :
  exists s1 s2,
    returned sample_imports (Add_textbox 0 0 10 10) sample_gap
      = Ok (Some s1) /\
    returned sample_imports (Add_textbox 5 5 10 10)
      (exec_all sample_imports [Clone_layout_placeholders sample_layout]
         (exec sample_imports (Add_textbox 0 0 10 10) sample_gap))
      = Ok (Some s2) /\
    (exists i j, id s1 = Ok i /\ id s2 = Ok j /\ (i < j)%Z) /\
    name s1 <> name s2.
Proof.
  do 2 eexists.
  assert (H1 : returned sample_imports (Add_textbox 0 0 10 10) sample_gap
               = Ok (Some (_Shape (new_textbox_sp 3 "TextBox 2" 0 0 10 10))))
    by reflexivity.
  assert (H2 : returned sample_imports (Add_textbox 5 5 10 10)
                 (exec_all sample_imports
                    [Clone_layout_placeholders sample_layout]
                    (exec sample_imports (Add_textbox 0 0 10 10)
                          sample_gap))
               = Ok (Some (_Shape (new_textbox_sp 9 "TextBox 8" 5 5 10 10))))
    by reflexivity.
  split; [exact H1|]. split; [exact H2|].
  destruct (added_ids_increase sample_imports _ _ _ _ _ _ H1 H2)
    as [Hids Hnames].
  split; [exact Hids | exact (Hnames eq_refl)].
Defined.

(** X3.  The shape an add returns wraps the element the add has appended;
    it reads back with the id the allocator gave and with the name made of
    the basename of the call and that id less one; it is not a placeholder;
    and it is the wrapper unmarshaling gives that element. *)
Theorem add_returns_identified (K : imports) (k : call) (c : collection)
    (s : shape) :
  returned K k c = Ok (Some s) ->
  exists i b,
    next_shape_id_of c = Ok i /\
    call_basename K k = Some b /\
    exec K k c = appended c (_element s) s /\
    id s = Ok i /\
    name s = Some (fmt_s_d b (i - 1)) /\
    is_placeholder s = false /\
    unmarshal_child unmarshal (_element s) = Ok (Some s).
Proof.
  intros H.
  apply Returned.returned_add in H
    as (_ & i & b & elm & Hi & Hb & Hx & _ & Hu & Hid & Hn & Hp).
  destruct (Unmarshaling.unmarshal_child_some _ _ Hu) as [He _].
  rewrite He. exists i, b. repeat split; assumption.
Qed.

Lemma add_returns_identified_witness :
  exists s i b,
    returned sample_imports (Add_table 2 3 0 0 300 200) sample_gap
      = Ok (Some s) /\
    next_shape_id_of sample_gap = Ok i /\
    call_basename sample_imports (Add_table 2 3 0 0 300 200) = Some b /\
    id s = Ok i /\
    name s = Some (fmt_s_d b (i - 1)) /\
    is_placeholder s = false.
Proof.
  assert (H : returned sample_imports (Add_table 2 3 0 0 300 200) sample_gap
              = Ok (Some (_Table (new_table 3 "Table 2" 2 3 0 0 300 200))))
    by reflexivity.
  destruct (add_returns_identified sample_imports _ _ _ H)
    as (i & b & Hi & Hb & _ & Hid & Hn & Hp & _).
  eexists. exists i, b. repeat split; eassumption.
Defined.

(* ====================================================================== *)
(** * Calls that fail, and what calls leave in place *)

Module Effects.
Section WithImports.
Context (K : imports).

Lemma clone_loop_no_id (sps : list shape) (c : collection) (e : exn) :
  next_shape_id_of c = Raise e -> snd (clone_loop K sps c) = c.
Proof.
  intros He. induction sps as [|sp rest IH]; [reflexivity|].
  rewrite Calls.clone_loop_cons. destruct (cloned K sp); [|exact IH].
  rewrite Calls.clone_layout_placeholder_run, He. reflexivity.
Qed.

(** While a collection grows the document keeps its ids and names, and
    gains one id for each shape. *)
Lemma grown_ids_perm P (c c' : collection) (ids : list Z) :
  grown P c c' -> ids_of (document c) = Ok ids ->
  exists news ids',
    ids_of (document c') = Ok ids' /\
    Permutation (news ++ ids) ids' /\
    List.length (__shapes c') = (List.length (__shapes c)
                                 + List.length news)%nat.
Proof.
  intros H Hids.
  induction H as [c|c c' elm s g nm _ IH Hg Helm _ _].
  - exists [], ids. repeat split; [assumption | reflexivity | simpl; lia].
  - destruct (IH Hids) as (news & ids' & Hids' & Hp & Hl).
    destruct (Growth.identified_attribs _ _ _ Helm) as (a & Ha & Hia & _).
    destruct (Doc.ids_appended c' elm s a g ids' Ha Hia Hids')
      as (ids'' & Hids'' & Hp').
    exists (g :: news), ids''. repeat split; [assumption | |].
    + rewrite <- Hp'. simpl. now constructor.
    + cbn [appended __shapes]. rewrite length_app, Hl. simpl. lia.
Qed.

Lemma grown_names_incl P (c c' : collection) :
  grown P c c' ->
  incl (names_of (document c)) (names_of (document c')).
Proof.
  induction 1 as [c|c c' elm s g nm _ IH _ Helm _ _].
  - apply incl_refl.
  - destruct (Growth.identified_attribs _ _ _ Helm) as (a & Ha & _ & _).
    pose proof (Doc.names_appended c' elm s a Ha) as Hp.
    intros x Hx. eapply Permutation_in; [exact Hp|].
    apply in_or_app. right. now apply IH.
Qed.

End WithImports.
End Effects.

(** X4.  When the id of some [cNvPr] element of the document cannot be
    read as a number, no call changes the collection: every add raises, and
    [_clone_layout_placeholders] clones nothing. *)
Theorem calls_change_nothing_on_bad_id (K : imports) (k : call)
    (c : collection) (e : exn) :
  shape_ids c = Raise e ->
  exec K k c = c /\
  (is_add k = true -> exists e', returned K k c = Raise e') /\
  (forall l t w h, add_textbox l t w h c = (Raise e, c)) /\
  (forall r n l t w h, add_table r n l t w h c = (Raise e, c)).
Proof.
  intros He.
  assert (Hn : next_shape_id_of c = Raise e)
    by (unfold next_shape_id_of; now rewrite He).
  split; [|split; [|split]].
  - destruct k; cbn [exec].
    + rewrite Calls.add_picture_run, Hn. now destruct (__slide c).
    + rewrite Calls.add_shape_run, Hn. now destruct (_AutoShapeType K _).
    + now rewrite Calls.add_table_run, Hn.
    + now rewrite Calls.add_textbox_run, Hn.
    + eapply Effects.clone_loop_no_id; eauto.
  - destruct k; cbn [is_add returned]; intros Hadd; try discriminate.
    + rewrite Calls.add_picture_run, Hn.
      destruct (__slide c); simpl; eauto.
    + rewrite Calls.add_shape_run, Hn.
      destruct (_AutoShapeType K _); simpl; eauto.
    + rewrite Calls.add_table_run, Hn. simpl. eauto.
    + rewrite Calls.add_textbox_run, Hn. simpl. eauto.
  - intros. now rewrite Calls.add_textbox_run, Hn.
  - intros. now rewrite Calls.add_table_run, Hn.
Qed.

Lemma calls_change_nothing_on_bad_id_witness :
  shape_ids sample_malformed
    = Raise (ValueError "invalid literal for int() with base 10: 'x'") /\
  exec sample_imports (Clone_layout_placeholders sample_layout)
       sample_malformed = sample_malformed.
Proof.
  assert (H : shape_ids sample_malformed
              = Raise (ValueError "invalid literal for int() with base 10: 'x'"))
    by reflexivity.
  split; [exact H|].
  exact (proj1 (calls_change_nothing_on_bad_id sample_imports
                  (Clone_layout_placeholders sample_layout)
                  sample_malformed _ H)).
Defined.

(** X5.  Calls only add to the document: after any sequence of calls on a
    collection every id the document had is still there, together with just
    one new id for each shape the collection has gained, and every name the
    document had is still a name of it. *)
Theorem calls_only_add (K : imports) (ks : list call) (c : collection)
    (ids : list Z) :
  shape_ids c = Ok ids ->
  exists news ids',
    shape_ids (exec_all K ks c) = Ok ids' /\
    Permutation (news ++ ids) ids' /\
    List.length (__shapes (exec_all K ks c))
    = (List.length (__shapes c) + List.length news)%nat /\
    incl (xpath_cNvPr_name c) (xpath_cNvPr_name (exec_all K ks c)).
Proof.
  rewrite !Doc.shape_ids_eq, !Doc.xpath_cNvPr_name_eq. intros Hids.
  pose proof (Returned.exec_all_grown K ks c) as Hg.
  destruct (Effects.grown_ids_perm _ _ _ ids Hg Hids)
    as (news & ids' & H1 & H2 & H3).
  exists news, ids'. repeat split; try assumption.
  eapply Effects.grown_names_incl; eauto.
Qed.

Lemma calls_only_add_witness :
  shape_ids sample_gap = Ok [1; 2; 4]%Z /\
  exists news ids',
    shape_ids (exec_all sample_imports
                 [Add_textbox 0 0 10 10;
                  Clone_layout_placeholders sample_layout] sample_gap)
      = Ok ids' /\
    Permutation (news ++ [1; 2; 4]%Z) ids'.
Proof.
  assert (H : shape_ids sample_gap = Ok [1; 2; 4]%Z) by reflexivity.
  split; [exact H|].
  destruct (calls_only_add sample_imports
              [Add_textbox 0 0 10 10;
               Clone_layout_placeholders sample_layout] sample_gap _ H)
    as (news & ids' & H1 & H2 & _).
  exists news, ids'. split; [exact H1 | exact H2].
Defined.

(* ====================================================================== *)
(** * Constructing the collection again *)

Module Sync.

Lemma unmarshal_loop_snoc (cs : list element) (elm : element) (s : shape) :
  unmarshal_child unmarshal elm = Ok (Some s) ->
  forall shapes,
    unmarshal_loop unmarshal cs [] = Ok shapes ->
    unmarshal_loop unmarshal (cs ++ [elm]) [] = Ok (shapes ++ [s]).
Proof.
  intros Hs. induction cs as [|c cs IH]; intros shapes H; simpl in *.
  - injection H as <-. now rewrite Hs.
  - destruct (unmarshal_child unmarshal c) as [[s'|]|e]; simpl in *.
    + rewrite Unmarshaling.unmarshal_loop_acc in H.
      rewrite Unmarshaling.unmarshal_loop_acc.
      destruct (unmarshal_loop unmarshal cs []) as [l|]; simpl in H;
        [|discriminate].
      injection H as <-. rewrite (IH l eq_refl). reflexivity.
    + now apply IH.
    + discriminate.
Qed.

Lemma appended_in_sync (c : collection) (elm : element) (s : shape) :
  unmarshal_child unmarshal elm = Ok (Some s) ->
  in_sync c -> in_sync (appended c elm s).
Proof.
  unfold in_sync. cbn [appended __spTree __shapes].
  destruct (__spTree c) as [t a cs]. cbn [append unmarshal].
  intros Hs H. now apply unmarshal_loop_snoc.
Qed.

Lemma grown_in_sync P (c c' : collection) :
  grown P c c' -> in_sync c -> in_sync c'.
Proof.
  induction 1; intros Hstart; [exact Hstart|].
  apply appended_in_sync; auto.
Qed.

Lemma grown_same_place P (c c' : collection) :
  grown P c c' -> ctx c' = ctx c /\ __slide c' = __slide c.
Proof.
  induction 1 as [c|c c' elm s g nm _ IH _ _ _ _]; [now split|].
  exact IH.
Qed.

End Sync.

(** X6.  After any sequence of calls on a collection that has been
    constructed, constructing a collection over its tree as the tree now is
    gives the very same collection: the same sequence of shapes, each shape
    wrapped in the same class. *)
Theorem init_again_gives_same (K : imports) ctx spTree slide
    (c : collection) (ks : list call) :
  __init__ ctx spTree slide = Ok c ->
  __init__ ctx (__spTree (exec_all K ks c)) slide = Ok (exec_all K ks c).
Proof.
  intros Hinit. unfold __init__ in Hinit.
  destruct (unmarshal spTree) as [shapes|] eqn:E; simpl in Hinit;
    [|discriminate].
  injection Hinit as <-.
  set (c := {| ctx := ctx; __spTree := spTree; __slide := slide;
               __shapes := shapes |}).
  pose proof (Returned.exec_all_grown K ks c) as Hg.
  assert (Hs : in_sync (exec_all K ks c))
    by (eapply Sync.grown_in_sync; [exact Hg | exact E]).
  destruct (Sync.grown_same_place _ _ _ Hg) as [Hctx Hslide].
  unfold __init__, in_sync in *. rewrite Hs. cbn [rbind].
  destruct (exec_all K ks c) as [ctx' spTree' slide' shapes'].
  cbn in Hctx, Hslide |- *. now subst.
Qed.

Lemma init_again_gives_same_witness :
  __init__ (ctx sample_gap) (__spTree sample_gap) None = Ok sample_gap /\
  __init__ (ctx sample_gap)
    (__spTree (exec_all sample_imports
                 [Add_table 2 3 0 0 300 200;
                  Clone_layout_placeholders sample_layout] sample_gap))
    None
  = Ok (exec_all sample_imports
          [Add_table 2 3 0 0 300 200;
           Clone_layout_placeholders sample_layout] sample_gap).
Proof.
  assert (H : __init__ (ctx sample_gap) (__spTree sample_gap) None
              = Ok sample_gap) by reflexivity.
  split; [exact H|].
  exact (init_again_gives_same sample_imports _ _ _ _
           [Add_table 2 3 0 0 300 200;
            Clone_layout_placeholders sample_layout] H).
Defined.

(* ====================================================================== *)
(** * Names made of a basename and a number *)

Module Convention.

Lemma uint_no_blank (d : Decimal.uint) :
  has_blank (NilEmpty.string_of_uint d) = false.
Proof.
  induction d; simpl; auto.
Qed.

Lemma fmt_d_no_blank (n : Z) : has_blank (fmt_d n) = false.
Proof.
  unfold fmt_d, NilZero.string_of_int, NilZero.string_of_uint.
  destruct (Z.to_int n) as [d|d]; destruct d; simpl;
    auto using uint_no_blank.
Qed.

Lemma has_blank_middle (b d : string) :
  has_blank (b ++ String " " d)%string = true.
Proof.
  induction b as [|a b IH]; simpl; [reflexivity|].
  rewrite IH. apply orb_true_r.
Qed.

(** The last blank of a name tells the basename from the number. *)
Lemma split_at_last_blank (b1 : string) :
  forall b2 d1 d2,
    has_blank d1 = false -> has_blank d2 = false ->
    (b1 ++ " " ++ d1)%string = (b2 ++ " " ++ d2)%string ->
    b1 = b2 /\ d1 = d2.
Proof.
  induction b1 as [|a b1 IH]; intros [|a2 b2] d1 d2 H1 H2 E; simpl in E.
  - injection E as E. now split.
  - injection E as Ea E. subst d1.
    now rewrite has_blank_middle in H1.
  - injection E as Ea E. subst d2.
    now rewrite has_blank_middle in H2.
  - injection E as Ea E. subst a2.
    destruct (IH b2 d1 d2 H1 H2 E) as [-> ->]. now split.
Qed.

(** A name of this form has one basename and one number. *)
Lemma fmt_s_d_inj2 (b1 b2 : string) (n1 n2 : Z) :
  fmt_s_d b1 n1 = fmt_s_d b2 n2 -> b1 = b2 /\ n1 = n2.
Proof.
  unfold fmt_s_d. intros E.
  apply split_at_last_blank in E as [Hb Hd];
    try apply fmt_d_no_blank.
  split; [exact Hb | now apply Text.fmt_d_inj].
Qed.

Lemma mapM_In {A B : Type} (f : A -> result B) (l : list A) :
  forall r a x, mapM f l = Ok r -> In a l -> f a = Ok x -> In x r.
Proof.
  induction l as [|a0 l IH]; intros r a x H Hin Hx; [contradiction|].
  simpl in H.
  destruct (f a0) as [b|] eqn:Eb; simpl in H; [|discriminate].
  destruct (mapM f l) as [bs|]; simpl in H; [|discriminate].
  injection H as <-. destruct Hin as [->|Hin].
  - rewrite Hx in Eb. injection Eb as ->. now left.
  - right. eapply IH; eauto.
Qed.

(** In a conventional document a name of this form is taken only if the id
    that goes with it is. *)
Lemma conventional_name_taken (root : element) (ids : list Z) (b : string)
    (n : Z) :
  conventional root -> ids_of root = Ok ids ->
  In (fmt_s_d b n) (names_of root) -> In (n + 1)%Z ids.
Proof.
  unfold conventional, names_of, ids_of. intros Hc Hids Hin.
  apply in_flat_map in Hin as (a & Ha & Hn).
  rewrite Forall_forall in Hc. specialize (Hc a Ha).
  unfold name_of_attribs in Hn.
  destruct (lookup_attr a "name") as [nm|] eqn:E; [|contradiction].
  destruct Hn as [->|[]].
  eapply mapM_In; eauto.
Qed.

Lemma appended_conventional (c : collection) (elm : element) (s : shape)
    (i : Z) (b : string) :
  identified_by elm i (fmt_s_d b (i - 1)) ->
  conventional (document c) -> conventional (document (appended c elm s)).
Proof.
  intros Helm Hc.
  destruct (Growth.identified_attribs _ _ _ Helm) as (a & Ha & Hia & Hna).
  destruct (Doc.document_appended c elm s) as (pre & post & H0 & H1).
  unfold conventional in *. rewrite H0 in Hc. rewrite H1, Ha.
  apply Forall_app in Hc as [Hpre Hpost].
  apply Forall_app. split; [exact Hpre|].
  constructor; [|exact Hpost].
  intros b' n Hn. unfold name_of_attribs in Hna. rewrite Hn in Hna.
  injection Hna as E. apply fmt_s_d_inj2 in E as [_ ->].
  rewrite Hia. f_equal. lia.
Qed.


End Convention.

Module Conventional.

Lemma conventional_intro (a : list (string * string)) (i : Z) (b : string) :
  id_of_attribs a = Ok i ->
  lookup_attr a "name" = Some (fmt_s_d b (i - 1)) ->
  conventional_attribs a.
Proof.
  intros Hi Hn b' n H. rewrite Hn in H. injection H as E.
  apply Convention.fmt_s_d_inj2 in E as [_ <-]. rewrite Hi. f_equal. lia.
Qed.

Lemma conventional_no_blank (a : list (string * string)) (nm : string) :
  lookup_attr a "name" = Some nm -> has_blank nm = false ->
  conventional_attribs a.
Proof.
  intros Hn Hb b n H. rewrite Hn in H. injection H as ->.
  change (fmt_s_d b n) with (b ++ String " " (fmt_d n))%string in Hb.
  now rewrite Convention.has_blank_middle in Hb.
Qed.

(** Appending an element that has the allocated id and a name composed
    with it keeps a tidy document tidy. *)
Lemma appended_keeps (c : collection) (elm : element) (s : shape) (i : Z)
    (b : string) :
  next_shape_id_of c = Ok i ->
  identified_by elm i (fmt_s_d b (i - 1)) ->
  ids_distinct (document c) /\ names_distinct (document c)
  /\ conventional (document c) ->
  ids_distinct (document (appended c elm s))
  /\ names_distinct (document (appended c elm s))
  /\ conventional (document (appended c elm s)).
Proof.
  intros Hi Helm (Hids & Hnames & Hconv).
  split; [|split].
  - eapply Growth.appended_ids; eauto.
  - apply (Growth.appended_names c elm s i _ Helm). split; [|exact Hnames].
    destruct Hids as (ids & Hids & _).
    destruct (Ids.next_shape_id_fresh c ids Hids) as (i' & Hi' & _ & Hfresh).
    rewrite Hi in Hi'. injection Hi' as <-.
    intros Hin. apply Hfresh.
    replace i with (i - 1 + 1)%Z by lia.
    eapply Convention.conventional_name_taken; eauto.
  - eapply Convention.appended_conventional; eauto.
Qed.

Lemma add_keeps (K : imports) (k : call) (c : collection) :
  is_add k = true ->
  ids_distinct (document c) /\ names_distinct (document c)
  /\ conventional (document c) ->
  ids_distinct (document (exec K k c))
  /\ names_distinct (document (exec K k c))
  /\ conventional (document (exec K k c)).
Proof.
  intros Hk H.
  destruct (Adds.add_cases K k c Hk)
    as [->|(elm & s & i & b & -> & Hi & Helm & _)]; [exact H|].
  eapply appended_keeps; eauto.
Qed.

(** In a tidy document the first name [__next_ph_name] tries for the id the
    allocator gives is free. *)
Lemma next_ph_name_first_try (K : imports) (ty ori : string) (i : Z)
    (c : collection) (nm : string) :
  ids_distinct (document c) -> conventional (document c) ->
  next_shape_id_of c = Ok i ->
  next_ph_name_of K ty i ori c = Ok nm ->
  exists b, slide_ph_basenames K ty = Some b /\
    nm = fmt_s_d (if String.eqb ori (PH_ORIENT_VERT K)
                  then ("Vertical " ++ b)%string else b) (i - 1).
Proof.
  intros (ids & Hids & _) Hconv Hi Hnm.
  destruct (slide_ph_basenames K ty) as [b|] eqn:Eb;
    [|unfold next_ph_name_of in Hnm; rewrite Eb in Hnm; discriminate].
  exists b. split; [reflexivity|].
  destruct (Names.next_ph_name_ok K ty i ori c b Eb) as (nm' & Hok & Hloop).
  rewrite Hnm in Hok. injection Hok as <-.
  apply Names.ph_name_loop_some in Hloop as (m & Hm & -> & _ & Hbelow).
  destruct (Z.eq_dec m (i - 1)) as [->|Hne]; [reflexivity|]. exfalso.
  destruct (Ids.next_shape_id_fresh c ids Hids) as (i' & Hi' & _ & Hfresh).
  rewrite Hi in Hi'. injection Hi' as <-.
  apply Hfresh. replace i with (i - 1 + 1)%Z by lia.
  eapply Convention.conventional_name_taken; eauto.
  rewrite <- Doc.xpath_cNvPr_name_eq. apply Hbelow. lia.
Qed.

Lemma clone_keeps (K : imports) (sps : list shape) :
  forall c,
    ids_distinct (document c) /\ names_distinct (document c)
    /\ conventional (document c) ->
    ids_distinct (document (snd (clone_loop K sps c)))
    /\ names_distinct (document (snd (clone_loop K sps c)))
    /\ conventional (document (snd (clone_loop K sps c))).
Proof.
  induction sps as [|sp rest IH]; intros c H; [exact H|].
  rewrite Calls.clone_loop_cons. destruct (cloned K sp); [|now apply IH].
  rewrite Calls.clone_layout_placeholder_run.
  destruct (next_shape_id_of c) as [i|] eqn:Ei; [|exact H].
  destruct (next_ph_name_of K _ i _ c) as [nm|] eqn:En; [|exact H].
  destruct (idx (_Placeholder sp)) as [j|]; [|exact H].
  cbv zeta. apply IH.
  destruct H as (Hids & Hnames & Hconv).
  destruct (next_ph_name_first_try K _ _ i c nm Hids Hconv Ei En)
    as (b & _ & ->).
  eapply appended_keeps; eauto.
  apply Builders.identified_new_placeholder_sp.
Qed.

Lemma call_keeps (K : imports) (k : call) (c : collection) :
  ids_distinct (document c) /\ names_distinct (document c)
  /\ conventional (document c) ->
  ids_distinct (document (exec K k c))
  /\ names_distinct (document (exec K k c))
  /\ conventional (document (exec K k c)).
Proof.
  destruct (is_add k) eqn:Hk; [now apply add_keeps|].
  destruct k; try discriminate. cbn [exec]. apply clone_keeps.
Qed.

End Conventional.

(** X7.  In a document whose ids are distinct, whose names are distinct,
    and in which every name that reads as a basename followed by a number
    belongs to the element whose id is that number plus one (the way the
    adds name their shapes), any sequence of adds and of calls of
    [_clone_layout_placeholders] keeps all three: the names the adds compose
    without a collision search do not collide, and the collision search of
    [__next_ph_name] finds its first name, the one of the new id less one,
    free. *)
Theorem calls_keep_conventional_names (K : imports) (ks : list call)
    (c : collection) :
  ids_distinct (document c) ->
  names_distinct (document c) ->
  conventional (document c) ->
  (ids_distinct (document (exec_all K ks c)) /\
   names_distinct (document (exec_all K ks c)) /\
   conventional (document (exec_all K ks c))) /\
  (forall ph_type orient id name,
     next_shape_id_of c = Ok id ->
     next_ph_name_of K ph_type id orient c = Ok name ->
     exists basename,
       slide_ph_basenames K ph_type = Some basename /\
       name = fmt_s_d (if String.eqb orient (PH_ORIENT_VERT K)
                       then ("Vertical " ++ basename)%string
                       else basename) (id - 1)).
Proof.
  intros Hi Hn Hc. split.
  - assert (H : ids_distinct (document c) /\ names_distinct (document c)
                /\ conventional (document c))
      by (repeat split; assumption).
    clear Hi Hn Hc. revert c H. unfold exec_all.
    induction ks as [|k ks IH]; intros c H; [exact H|].
    cbn [fold_left]. apply IH. now apply Conventional.call_keeps.
  - intros ph_type orient id name Hid Hname.
    eapply Conventional.next_ph_name_first_try; eauto.
Qed.

Lemma calls_keep_conventional_names_witness :
  conventional (document sample_gap) /\
  names_distinct
    (document
       (exec_all sample_imports
          [Add_textbox 0 0 10 10; Add_table 2 3 0 0 300 200;
           Clone_layout_placeholders sample_layout;
           Add_shape 1 0 0 10 10; Add_textbox 0 0 10 10] sample_gap)).
Proof.
  assert (Hc : conventional (document sample_gap)).
  { unfold conventional.
    change (cNvPr_attribs (document sample_gap))
      with [[("id", "1"); ("name", "")];
            [("id", "2"); ("name", "TextBox 1")];
            [("id", "4"); ("name", "TextBox 3")]].
    repeat constructor.
    - now apply (Conventional.conventional_no_blank _ "").
    - now apply (Conventional.conventional_intro _ 2 "TextBox").
    - now apply (Conventional.conventional_intro _ 4 "TextBox"). }
  split; [exact Hc|].
  apply (calls_keep_conventional_names sample_imports
           [Add_textbox 0 0 10 10; Add_table 2 3 0 0 300 200;
            Clone_layout_placeholders sample_layout;
            Add_shape 1 0 0 10 10; Add_textbox 0 0 10 10] sample_gap).
  - exists [1; 2; 4]%Z. split; [reflexivity|].
    repeat constructor; simpl; lia.
  - unfold names_distinct.
    change (names_of (document sample_gap))
      with [""; "TextBox 1"; "TextBox 3"].
    repeat constructor; simpl; intuition discriminate.
  - exact Hc.
Defined.

(* ====================================================================== *)
(** * A layout placeholder of an unknown type *)

Module Partial.
Section WithImports.
Context (K : imports).

(** Cloning a layout in two parts. *)
Lemma clone_loop_app (l1 l2 : list shape) :
  forall c,
    clone_loop K (l1 ++ l2) c =
    match clone_loop K l1 c with
    | (Ok _, c1) => clone_loop K l2 c1
    | (Raise e, c1) => (Raise e, c1)
    end.
Proof.
  induction l1 as [|sp l1 IH]; intros c; [reflexivity|].
  cbn [app]. rewrite !Calls.clone_loop_cons.
  destruct (cloned K sp); [|apply IH].
  destruct (__clone_layout_placeholder K (_Placeholder sp) c) as [[s|e] c'];
    [apply IH | reflexivity].
Qed.

End WithImports.
End Partial.

(** X8.  When a placeholder of the layout that is to be cloned has a type
    with no entry in the table of basenames, [_clone_layout_placeholders]
    raises the [KeyError] of that type and stops there: the placeholders
    before it stay cloned, and neither it nor any placeholder after it is
    cloned. *)
Theorem clone_stops_at_unknown_type (K : imports) (before after : list shape)
    (sp : shape) (c c1 : collection) (i : Z) :
  _clone_layout_placeholders K before c = (Ok tt, c1) ->
  to_clone K sp = true ->
  slide_ph_basenames K (type (_Placeholder sp)) = None ->
  next_shape_id_of c1 = Ok i ->
  _clone_layout_placeholders K (before ++ sp :: after) c
  = (Raise (KeyError (type (_Placeholder sp))), c1).
Proof.
  unfold _clone_layout_placeholders. intros Hb Hsp Hty Hi.
  rewrite Partial.clone_loop_app, Hb, Calls.clone_loop_cons.
  rewrite Cloning.cloned_to_clone, Hsp.
  rewrite Calls.clone_layout_placeholder_run, Hi.
  unfold next_ph_name_of. now rewrite Hty.
Qed.

Lemma clone_stops_at_unknown_type_witness :
  _clone_layout_placeholders sample_imports sample_layout_chart sample_gap
  = (Raise (KeyError "chart"),
     snd (_clone_layout_placeholders sample_imports
            [_Shape (new_placeholder_sp 2 "Title 1" "title" "horz"
                                         "full" 0)]
            sample_gap)).
Proof.
  apply (clone_stops_at_unknown_type sample_imports
           [_Shape (new_placeholder_sp 2 "Title 1" "title" "horz" "full" 0)]
           [_Shape (new_placeholder_sp 4 "Text Placeholder 3" "body" "horz"
                                        "half" 2)]
           (_Shape (new_placeholder_sp 3 "Chart Placeholder 2" "chart"
                                        "horz" "half" 1))
           sample_gap _ 5%Z); reflexivity.
Defined.

(* ====================================================================== *)
(** * The title and the placeholders under adds *)

Module Views.

Lemma first_title_snoc (title_types : list string) (l : list shape)
    (s : shape) :
  is_placeholder s = false ->
  first_title title_types (l ++ [s]) = first_title title_types l.
Proof.
  intros Hs. induction l as [|x l IH]; simpl.
  - unfold _is_title. now rewrite Hs.
  - destruct (_is_title title_types x); [reflexivity | exact IH].
Qed.

(** An add either raises and changes nothing, or returns a shape. *)
Lemma add_outcome (K : imports) (k : call) (c : collection) :
  is_add k = true ->
  exec K k c = c \/ exists s, returned K k c = Ok (Some s).
Proof.
  destruct k as [f l t w h|a l t w h|r n l t w h|l t w h|sps];
    cbn [is_add exec returned]; intros Hk; try discriminate.
  - rewrite Calls.add_picture_run. destruct (__slide c); [|now left].
    destruct (next_shape_id_of c); [right; cbn; eauto | now left].
  - rewrite Calls.add_shape_run.
    destruct (_AutoShapeType K a); [|now left].
    destruct (next_shape_id_of c); [right; cbn; eauto | now left].
  - rewrite Calls.add_table_run.
    destruct (next_shape_id_of c); [right; cbn; eauto | now left].
  - rewrite Calls.add_textbox_run.
    destruct (next_shape_id_of c); [right; cbn; eauto | now left].
Qed.

End Views.

(** X9.  An add never changes what [title] and [placeholders] give: the
    shape it appends is not a placeholder, so the title stays the title (or
    stays absent) and the placeholders stay the same, in the same order. *)
Theorem add_keeps_title_and_placeholders (K : imports)
    (title_types : list string) (k : call) (c : collection) :
  is_add k = true ->
  title title_types (exec K k c) = title title_types c /\
  placeholders (exec K k c) = placeholders c.
Proof.
  intros Hk.
  destruct (Views.add_outcome K k c Hk) as [->|[s Hs]]; [now split|].
  apply Returned.returned_add in Hs
    as (_ & i & b & elm & _ & _ & -> & _ & _ & _ & _ & Hp).
  unfold title, placeholders. cbn [appended __shapes]. split.
  - now apply Views.first_title_snoc.
  - rewrite filter_app. cbn [filter]. rewrite Hp. now rewrite app_nil_r.
Qed.

Lemma add_keeps_title_and_placeholders_witness :
  title ["title"; "ctrTitle"]
        (exec sample_imports (Add_textbox 0 0 10 10) sample_cloned)
  = title ["title"; "ctrTitle"] sample_cloned /\
  placeholders (exec sample_imports (Add_textbox 0 0 10 10) sample_cloned)
  = placeholders sample_cloned.
Proof.
  apply (add_keeps_title_and_placeholders sample_imports
           ["title"; "ctrTitle"] (Add_textbox 0 0 10 10) sample_cloned).
  reflexivity.
Defined.

Example title_of_sample_cloned :
  option_map name (title ["title"; "ctrTitle"] sample_cloned)
  = Some (Some "Title 2") /\
  title ["title"; "ctrTitle"] sample_gap = None.
Proof. split; reflexivity. Qed.

(* ====================================================================== *)
(** * The placeholders after cloning *)

Module Overlay.

Lemma idx_of_keyed (l : list placeholder) :
  mapM idx l = rbind (mapM keyed l) (fun kl => Ok (map fst kl)).
Proof.
  induction l as [|ph l IH]; simpl; [reflexivity|].
  unfold keyed at 1. rewrite IH.
  destruct (idx ph); simpl; [|reflexivity].
  destruct (mapM keyed l); reflexivity.
Qed.

Lemma idx_of_snd (kl : list (Z * placeholder)) :
  Forall (fun kp => idx (snd kp) = Ok (fst kp)) kl ->
  mapM idx (map snd kl) = Ok (map fst kl).
Proof.
  induction 1 as [|kp kl Hkp _ IH]; simpl; [reflexivity|].
  now rewrite Hkp, IH.
Qed.

Lemma insert_front_map {A : Type} (key : A -> Z) (x : A) (l : list A) :
  map key (insert_front key x l)
  = insert_front (fun i => i) (key x) (map key l).
Proof.
  induction l as [|y l IH]; simpl; [reflexivity|].
  destruct (key y <? key x)%Z; simpl; [now rewrite IH | reflexivity].
Qed.

Lemma sort_map {A : Type} (key : A -> Z) (l : list A) :
  map key (sort key l) = sort (fun i => i) (map key l).
Proof.
  induction l as [|x l IH]; simpl; [reflexivity|].
  now rewrite insert_front_map, IH.
Qed.

(** The idx values [placeholders] comes with are those of the placeholder
    members, sorted. *)
Lemma placeholders_idx (c : collection) :
  rbind (placeholders c) (mapM idx)
  = rbind (mapM idx (map _Placeholder
                       (filter is_placeholder (__shapes c))))
          (fun ks => Ok (sort (fun i => i) ks)).
Proof.
  unfold placeholders. rewrite idx_of_keyed.
  destruct (mapM keyed _) as [kl|e] eqn:E; [|reflexivity].
  cbn [rbind].
  destruct (Placeholders.keyed_spec _ kl E) as [_ Hk].
  rewrite idx_of_snd.
  - now rewrite sort_map.
  - eapply Permutation_Forall; [|exact Hk].
    symmetry. apply Sorting.sort_perm.
Qed.

(** The clones are placeholders with the idx values of the layout. *)
Lemma copies_idx (phs : list shape) (sps : list element) :
  Forall2 copy_of phs sps ->
  filter is_placeholder (map _Shape sps) = map _Shape sps /\
  exists news,
    mapM idx (map _Placeholder phs) = Ok news /\
    mapM idx (map _Placeholder (map _Shape sps)) = Ok news.
Proof.
  induction 1 as [|ph sp phs sps Hc _ (Hf & news & H1 & H2)]; simpl.
  - split; [reflexivity|]. now exists [].
  - destruct Hc as (_ & Hp & _ & _ & _ & i & Hi & Hi').
    rewrite Hp, Hf. split; [reflexivity|].
    exists (i :: news). now rewrite Hi, Hi', H1, H2.
Qed.

Lemma sort_sort_app (ks news : list Z) :
  sort (fun i => i) (ks ++ news)
  = sort (fun i => i) (sort (fun i => i) ks ++ news).
Proof.
  apply MoreIds.sorted_perm_eq; try apply Ids.sorted_ids.
  rewrite !Sorting.sort_perm. reflexivity.
Qed.

End Overlay.

(** X10.  After the placeholders of a layout have been cloned onto a
    collection, [placeholders] gives the placeholders the collection had
    together with the clones, and their idx values are, in order, the idx
    values it gave before merged in ascending order with those of the
    layout placeholders that were cloned. *)
Theorem placeholders_after_clone (K : imports) (layout : list shape)
    (c c' : collection) (olds : list Z) :
  _clone_layout_placeholders K layout c = (Ok tt, c') ->
  rbind (placeholders c) (mapM idx) = Ok olds ->
  exists news,
    mapM idx (map _Placeholder (filter (to_clone K) layout)) = Ok news /\
    rbind (placeholders c') (mapM idx)
    = Ok (sort (fun i => i) (olds ++ news)).
Proof.
  intros Hclone Holds.
  apply Cloning.clone_loop_clones in Hclone.
  rewrite Cloning.filter_cloned in Hclone.
  destruct (Cloning.clones_copies K _ _ _ Hclone) as (sps & Hs & _ & Hf).
  destruct (Overlay.copies_idx _ _ Hf) as (Hfilter & news & Hn & Hn').
  exists news. split; [exact Hn|].
  rewrite Overlay.placeholders_idx in Holds |- *.
  destruct (mapM idx (map _Placeholder (filter is_placeholder (__shapes c))))
    as [ks|] eqn:Ek; [|discriminate].
  cbn [rbind] in Holds. injection Holds as <-.
  rewrite Hs, filter_app, Hfilter, map_app.
  assert (Happ : mapM idx
                   (map _Placeholder (filter is_placeholder (__shapes c))
                    ++ map _Placeholder (map _Shape sps))
                 = Ok (ks ++ news)).
  { apply Results.mapM_app. exists ks, news. auto. }
  rewrite Happ. cbn [rbind]. f_equal. apply Overlay.sort_sort_app.
Qed.

Lemma placeholders_after_clone_witness :
  rbind (placeholders sample_cloned) (mapM idx) = Ok [1; 2; 3; 13]%Z /\
  exists news,
    mapM idx (map _Placeholder
                (filter (to_clone sample_imports) sample_layout))
      = Ok news /\
    rbind (placeholders
             (exec sample_imports (Clone_layout_placeholders sample_layout)
                   sample_cloned))
          (mapM idx)
    = Ok (sort (fun i => i) ([1; 2; 3; 13]%Z ++ news)).
Proof.
  assert (H : rbind (placeholders sample_cloned) (mapM idx)
              = Ok [1; 2; 3; 13]%Z) by reflexivity.
  split; [exact H|].
  apply (placeholders_after_clone sample_imports sample_layout
           sample_cloned
           (exec sample_imports (Clone_layout_placeholders sample_layout)
                 sample_cloned)
           [1; 2; 3; 13]%Z).
  - reflexivity.
  - exact H.
Defined.

(* ====================================================================== *)
(** * Names after a call *)

(** C2, as the code has it.  An add makes no collision search.  When it
    returns a shape, the name of that shape is the basename of the call
    ([Picture], [Table], [TextBox], or that of the autoshape type) followed
    by the new id less one; that name is then a name of the document, and
    the names of the document are distinct afterwards exactly when they were
    distinct before and that name was not yet a name of the document.  When
    an add raises, the collection is as it was.  A call of
    [_clone_layout_placeholders] leaves distinct names distinct, and so does
    any sequence of such calls, since every name they give has been searched
    for among the names of the document. *)
Theorem names_after_call (K : imports) (k : call) (ks : list call)
    (c : collection) :
  (forall s, returned K k c = Ok (Some s) ->
     exists id basename,
       next_shape_id_of c = Ok id /\
       call_basename K k = Some basename /\
       name s = Some (fmt_s_d basename (id - 1)) /\
       exec K k c = appended c (_element s) s /\
       In (fmt_s_d basename (id - 1))
          (tree_names (document (exec K k c))) /\
       (names_distinct (document (exec K k c)) <->
        names_distinct (document c) /\
        ~ In (fmt_s_d basename (id - 1)) (tree_names (document c)))) /\
  (is_add k = true ->
   forall e, returned K k c = Raise e -> exec K k c = c) /\
  (is_add k = false -> names_distinct (document c) ->
   names_distinct (document (exec K k c))) /\
  (forallb (fun k => negb (is_add k)) ks = true ->
   names_distinct (document c) ->
   names_distinct (document (exec_all K ks c))).
Proof.
  split; [|split; [|split]].
  - intros s Hs.
    apply Returned.returned_add in Hs
      as (_ & i & b & elm & Hi & Hb & Hx & Helm & Hu & _ & Hn & _).
    destruct (Unmarshaling.unmarshal_child_some _ _ Hu) as [He _].
    subst elm. exists i, b. rewrite Hx.
    rewrite <- !TreeNames.names_of_tree_names.
    do 4 (split; [first [assumption | reflexivity]|]). split.
    + destruct (Growth.identified_attribs _ _ _ Helm) as (a & Ha & _ & Hna).
      pose proof (Doc.names_appended c (_element s) s a Ha) as Hp.
      rewrite Hna in Hp. eapply Permutation_in; [exact Hp | now left].
    + rewrite (Growth.appended_names c _ s i _ Helm). tauto.
  - intros Hk e He.
    destruct (Views.add_outcome K k c Hk) as [H|[s Hs]]; [exact H|].
    rewrite He in Hs. discriminate.
  - intros Hk Hnd. now apply Adds.clone_names.
  - intros Hall Hnd. revert c Hnd. unfold exec_all.
    induction ks as [|k' ks IH]; intros c Hnd; [exact Hnd|].
    cbn [forallb] in Hall. apply andb_prop in Hall as [Hk' Hall].
    cbn [fold_left]. apply IH; [exact Hall|].
    apply Adds.clone_names; [|exact Hnd].
    now destruct (is_add k').
Qed.

Lemma names_after_call_witness :
  returned sample_imports (Add_textbox 0 0 10 10) sample_renamed
  = Ok (Some (_Shape (new_textbox_sp 2 "TextBox 1" 0 0 10 10))) /\
  (exists id basename,
     next_shape_id_of sample_renamed = Ok id /\
     call_basename sample_imports (Add_textbox 0 0 10 10) = Some basename /\
     name (_Shape (new_textbox_sp 2 "TextBox 1" 0 0 10 10))
     = Some (fmt_s_d basename (id - 1))) /\
  names_distinct (document sample_gap) /\
  names_distinct (document sample_cloned) /\
  names_distinct
    (document
       (exec_all sample_imports
          [Clone_layout_placeholders sample_layout;
           Clone_layout_placeholders sample_layout] sample_gap)).
Proof.
  assert (Hr : returned sample_imports (Add_textbox 0 0 10 10)
                 sample_renamed
               = Ok (Some (_Shape (new_textbox_sp 2 "TextBox 1" 0 0 10 10))))
    by reflexivity.
  assert (H0 : names_distinct (document sample_gap)).
  { unfold names_distinct.
    change (names_of (document sample_gap))
      with [""; "TextBox 1"; "TextBox 3"].
    repeat constructor; simpl; intuition discriminate. }
  split; [exact Hr|]. split.
  - destruct (proj1 (names_after_call sample_imports
                       (Add_textbox 0 0 10 10) [] sample_renamed) _ Hr)
      as (i & b & Hi & Hb & Hn & _).
    exists i, b. repeat split; assumption.
  - split; [exact H0|].
    destruct (names_after_call sample_imports
                (Clone_layout_placeholders sample_layout)
                [Clone_layout_placeholders sample_layout;
                 Clone_layout_placeholders sample_layout] sample_gap)
      as (_ & _ & H1 & H2).
    split; [exact (H1 eq_refl H0) | exact (H2 eq_refl H0)].
Defined.
